(** * Tic-tac-toe engine: win detection and heuristic move selection

    Shallow embedding of the game engine that is duplicated in
    [tic-tac-toe/src/App.jsx] (the UI) and [server/index.js] (the HTTP
    API), together with the two request handlers of the server.

    Numbers are JavaScript numbers restricted to integers and modelled
    as [Z]; the only place where the source leaves the integers
    (division by a zero [size]) is modelled by an explicit [NaN]. *)

From Stdlib Require Import ZArith Lia List Bool String.
From stdpp Require Import base decidable option numbers list.

Local Open Scope Z_scope.

(** ** JavaScript values used by the engine *)

(** The two player symbols, the strings ['X'] and ['O']. *)
Inductive mark := X | O.

#[global] Instance mark_eq_dec : EqDecision mark.
Proof. solve_decision. Defined.

(** A board cell holds [null] ([None]) or a mark. *)
Abbreviation cell := (option mark).

(** A board is a JavaScript array of cells. *)
Abbreviation board := (list cell).

(** [board[i]] for an integer [i]: the element, or [undefined] ([None])
    when [i] is negative or not below [board.length]. *)
Definition js_get (b : board) (i : Z) : option cell :=
  if 0 <=? i then b !! Z.to_nat i else None.

(** [board[i] === v] for a mark [v]. *)
Definition is_mark (x : option cell) (v : mark) : bool :=
  bool_decide (x = Some (Some v)).

(** A counting loop [for (let i = lo; i < hi; i++)]. *)
Definition range (lo hi : Z) : list Z := seqZ lo (hi - lo).

(** A loop whose body may [return]: the first iteration that returns
    decides, later iterations do not run. *)
Fixpoint first_some {A B : Type} (f : A → option B) (l : list A) : option B :=
  match l with
  | [] => None
  | x :: l' =>
      match f x with
      | Some y => Some y
      | None => first_some f l'
      end
  end.

(** Sequencing of two code blocks the first of which may [return]. *)
Definition or_else {A : Type} (x y : option A) : option A :=
  match x with
  | Some v => Some v
  | None => y
  end.

(** The numbers a score variable can hold. *)
Inductive jsnum := NaN | NegInf | Num (z : Z).

(** [a > b] on those numbers; every comparison with [NaN] is false. *)
Definition js_gt (a b : jsnum) : bool :=
  match a, b with
  | Num x, Num y => y <? x
  | Num _, NegInf => true
  | _, _ => false
  end.

(** The four scan directions [[dr, dc]] of [evaluateCell]. *)
Definition directions : list (Z * Z) := [(0, 1); (1, 0); (1, 1); (1, -1)].

(** ** The engine of the UI, [tic-tac-toe/src/App.jsx] *)

Module App.

(** The body of the two inner-most statements of every scan of
    [computeWinner]: with [v = board[i0]] truthy, compare the cells
    [board[i0 + k * step]] for [k = 1 .. winLength - 1] with [v]. *)
Definition window (b : board) (winLength i0 step : Z) : option mark :=
  match js_get b i0 with
  | Some (Some v) =>
      if forallb (λ k, is_mark (js_get b (i0 + k * step)) v) (range 1 winLength)
      then Some v else None
  | _ => None
  end.

Definition computeWinner (b : board) (size winLength : Z) : option mark :=
  (* Rows *)
  or_else
    (first_some (λ r,
       first_some (λ c, window b winLength (r * size + c) 1)
         (range 0 (size - winLength + 1)))
       (range 0 size))
  (* Columns *)
  (or_else
    (first_some (λ c,
       first_some (λ r, window b winLength (r * size + c) size)
         (range 0 (size - winLength + 1)))
       (range 0 size))
  (* Diagonal down-right *)
  (or_else
    (first_some (λ r,
       first_some (λ c, window b winLength (r * size + c) (size + 1))
         (range 0 (size - winLength + 1)))
       (range 0 (size - winLength + 1)))
  (* Diagonal down-left *)
    (first_some (λ r,
       first_some (λ c, window b winLength (r * size + c) (size - 1))
         (range (winLength - 1) size))
       (range 0 (size - winLength + 1))))).

Definition findImmediateMove (b : board) (size winLength : Z) (player : mark)
  : option nat :=
  first_some (λ i : nat,
    match b !! i with
    | Some None =>
        let next := <[i := Some player]> b in
        let w := computeWinner next size winLength in
        if bool_decide (w = Some player) then Some i else None
    | _ => None
    end) (seq 0 (length b)).

Definition getCenterIndex (size : Z) : Z :=
  let center := size / 2 in
  center * size + center.

(** The inner [k] loop of [evaluateCell]: the positions of the window
    that starts [t] steps from the candidate, or [None] for
    [windowCells = null] when a cell leaves the board. *)
Fixpoint windowCells (size dr dc row col t : Z) (ks : list Z) : option (list Z) :=
  match ks with
  | [] => Some []
  | k :: ks' =>
      let rr := row + (t + k) * dr in
      let cc := col + (t + k) * dc in
      if (rr <? 0) || (size <=? rr) || (cc <? 0) || (size <=? cc) then None
      else
        match windowCells size dr dc row col t ks' with
        | Some cells => Some (rr * size + cc :: cells)
        | None => None
        end
  end.

(** The counting loop: [(countO, countX)] of a window, the candidate
    [idx] counted as ['O']. *)
Definition countMarks (b : board) (idx : Z) (cells : list Z) : Z * Z :=
  fold_left (λ '(countO, countX) pos,
    let v := if pos =? idx then Some (Some O) else js_get b pos in
    if is_mark v O then (countO + 1, countX)
    else if is_mark v X then (countO, countX + 1)
    else (countO, countX)) cells (0, 0).

(** One iteration of the [t] loop, as the change of [score]. *)
Definition scoreWindow (b : board) (size winLength idx dr dc : Z)
  (score t : Z) : Z :=
  match windowCells size dr dc (idx / size) (Z.rem idx size) t
          (range 0 winLength) with
  | None => score
  | Some cells =>
      if negb (existsb (Z.eqb idx) cells) then score
      else
        let '(countO, countX) := countMarks b idx cells in
        if countX =? 0 then
          let score := score + countO * countO * 25 in
          if countO =? winLength - 1 then score + 200 else score
        else
          let score := score - countX * countX * 20 in
          if countX =? winLength - 1 then score - 150 else score
  end.

(** [evaluateCell] on integers.  All its arithmetic stays in the
    integers unless [size] is [0]; then [Math.floor(centerIndex / size)]
    is [NaN], so is [dist], and so is every later value of [score]. *)
Definition evaluateCell (b : board) (size winLength idx centerIndex : Z)
  : jsnum :=
  if size =? 0 then NaN
  else
    let score := 0 in
    let score :=
      let cr := centerIndex / size in
      let cc := Z.rem centerIndex size in
      let r := idx / size in
      let c := Z.rem idx size in
      let dist := Z.abs (r - cr) + Z.abs (c - cc) in
      score + Z.max 0 (10 - dist) in
    let score :=
      fold_left (λ score '(dr, dc),
        fold_left (scoreWindow b size winLength idx dr dc)
          (range (- (winLength - 1)) 1) score) directions score in
    let corners := [0; size - 1; size * (size - 1); size * size - 1] in
    let score :=
      if existsb (Z.eqb idx) corners
      then score + (if size =? 3 then 15 else 5) else score in
    Num score.

Definition getSmartAiMove (b : board) (size winLength : Z) : option nat :=
  (* 1) Try winning move *)
  match findImmediateMove b size winLength O with
  | Some winMove => Some winMove
  | None =>
  (* 2) Block opponent immediate win *)
  match findImmediateMove b size winLength X with
  | Some blockMove => Some blockMove
  | None =>
  (* 3) Heuristic scoring across all empty cells *)
  let empty := filter (λ i, b !! i = Some None) (seq 0 (length b)) in
  match empty with
  | [] => None
  | e0 :: _ =>
      let centerIndex := getCenterIndex size in
      let '(bestIdx, bestScore) :=
        fold_left (λ '(bestIdx, bestScore) idx,
          let score := evaluateCell b size winLength (Z.of_nat idx) centerIndex in
          if js_gt score bestScore then (idx, score) else (bestIdx, bestScore))
          empty (e0, NegInf) in
      Some bestIdx
  end
  end
  end.

End App.

(** ** The engine and the handlers of the server, [server/index.js] *)
Module Server.

(** The body of the two inner-most statements of every scan of
    [computeWinner]: with [v = board[i0]] truthy, compare the cells
    [board[i0 + k * step]] for [k = 1 .. winLength - 1] with [v]. *)
Definition window (b : board) (winLength i0 step : Z) : option mark :=
  match js_get b i0 with
  | Some (Some v) =>
      if forallb (λ k, is_mark (js_get b (i0 + k * step)) v) (range 1 winLength)
      then Some v else None
  | _ => None
  end.

Definition computeWinner (b : board) (size winLength : Z) : option mark :=
  (* Rows *)
  or_else
    (first_some (λ r,
       first_some (λ c, window b winLength (r * size + c) 1)
         (range 0 (size - winLength + 1)))
       (range 0 size))
  (* Columns *)
  (or_else
    (first_some (λ c,
       first_some (λ r, window b winLength (r * size + c) size)
         (range 0 (size - winLength + 1)))
       (range 0 size))
  (* Diagonal down-right *)
  (or_else
    (first_some (λ r,
       first_some (λ c, window b winLength (r * size + c) (size + 1))
         (range 0 (size - winLength + 1)))
       (range 0 (size - winLength + 1)))
  (* Diagonal down-left *)
    (first_some (λ r,
       first_some (λ c, window b winLength (r * size + c) (size - 1))
         (range (winLength - 1) size))
       (range 0 (size - winLength + 1))))).

Definition findImmediateMove (b : board) (size winLength : Z) (player : mark)
  : option nat :=
  first_some (λ i : nat,
    match b !! i with
    | Some None =>
        let next := <[i := Some player]> b in
        let w := computeWinner next size winLength in
        if bool_decide (w = Some player) then Some i else None
    | _ => None
    end) (seq 0 (length b)).

Definition getCenterIndex (size : Z) : Z :=
  let center := size / 2 in
  center * size + center.

(** The inner [k] loop of [evaluateCell]: the positions of the window
    that starts [t] steps from the candidate, or [None] for
    [windowCells = null] when a cell leaves the board. *)
Fixpoint windowCells (size dr dc row col t : Z) (ks : list Z) : option (list Z) :=
  match ks with
  | [] => Some []
  | k :: ks' =>
      let rr := row + (t + k) * dr in
      let cc := col + (t + k) * dc in
      if (rr <? 0) || (size <=? rr) || (cc <? 0) || (size <=? cc) then None
      else
        match windowCells size dr dc row col t ks' with
        | Some cells => Some (rr * size + cc :: cells)
        | None => None
        end
  end.

(** The counting loop: [(countO, countX)] of a window, the candidate
    [idx] counted as ['O']. *)
Definition countMarks (b : board) (idx : Z) (cells : list Z) : Z * Z :=
  fold_left (λ '(countO, countX) pos,
    let v := if pos =? idx then Some (Some O) else js_get b pos in
    if is_mark v O then (countO + 1, countX)
    else if is_mark v X then (countO, countX + 1)
    else (countO, countX)) cells (0, 0).

(** One iteration of the [t] loop, as the change of [score]. *)
Definition scoreWindow (b : board) (size winLength idx dr dc : Z)
  (score t : Z) : Z :=
  match windowCells size dr dc (idx / size) (Z.rem idx size) t
          (range 0 winLength) with
  | None => score
  | Some cells =>
      if negb (existsb (Z.eqb idx) cells) then score
      else
        let '(countO, countX) := countMarks b idx cells in
        if countX =? 0 then
          let score := score + countO * countO * 25 in
          if countO =? winLength - 1 then score + 200 else score
        else
          let score := score - countX * countX * 20 in
          if countX =? winLength - 1 then score - 150 else score
  end.

(** [evaluateCell] on integers.  All its arithmetic stays in the
    integers unless [size] is [0]; then [Math.floor(centerIndex / size)]
    is [NaN], so is [dist], and so is every later value of [score]. *)
Definition evaluateCell (b : board) (size winLength idx centerIndex : Z)
  : jsnum :=
  if size =? 0 then NaN
  else
    let score := 0 in
    let score :=
      let cr := centerIndex / size in
      let cc := Z.rem centerIndex size in
      let r := idx / size in
      let c := Z.rem idx size in
      let dist := Z.abs (r - cr) + Z.abs (c - cc) in
      score + Z.max 0 (10 - dist) in
    let score :=
      fold_left (λ score '(dr, dc),
        fold_left (scoreWindow b size winLength idx dr dc)
          (range (- (winLength - 1)) 1) score) directions score in
    let corners := [0; size - 1; size * (size - 1); size * size - 1] in
    let score :=
      if existsb (Z.eqb idx) corners
      then score + (if size =? 3 then 15 else 5) else score in
    Num score.

Definition getSmartAiMove (b : board) (size winLength : Z) : option nat :=
  match findImmediateMove b size winLength O with
  | Some winMove => Some winMove
  | None =>
  match findImmediateMove b size winLength X with
  | Some blockMove => Some blockMove
  | None =>
  let empty := filter (λ i, b !! i = Some None) (seq 0 (length b)) in
  match empty with
  | [] => None
  | e0 :: _ =>
      let centerIndex := getCenterIndex size in
      let '(bestIdx, bestScore) :=
        fold_left (λ '(bestIdx, bestScore) idx,
          let score := evaluateCell b size winLength (Z.of_nat idx) centerIndex in
          if js_gt score bestScore then (idx, score) else (bestIdx, bestScore))
          empty (e0, NegInf) in
      Some bestIdx
  end
  end
  end.

(** *** The request handlers *)

(** Parsed JSON, as [express.json()] leaves it in [req.body].  Numbers
    are restricted to integers. *)
#[warnings="-register-all"] Inductive json :=
  | JNull
  | JBool (b : bool)
  | JNum (n : Z)
  | JStr (s : string)
  | JArr (items : list json)
  | JObj (fields : list (string * json)).

(** [c === null] *)
Definition isNull (c : json) : bool :=
  match c with JNull => true | _ => false end.

(** A JavaScript value of a handler: [undefined] ([None]) or JSON. *)
Definition jsval := option json.

(** Truthiness, as tested by [!v] and [v || w]. *)
Definition truthy (v : jsval) : bool :=
  match v with
  | None | Some JNull => false
  | Some (JBool b) => b
  | Some (JNum n) => negb (n =? 0)
  | Some (JStr s) => negb (String.eqb s "")
  | Some (JArr _) | Some (JObj _) => true
  end.

(** [Array.isArray(v)], giving the elements. *)
Definition asArray (v : jsval) : option (list json) :=
  match v with
  | Some (JArr items) => Some items
  | _ => None
  end.

(** The last binding of [key], as [JSON.parse] keeps it. *)
Fixpoint lookupField (key : string) (fields : list (string * json)) : jsval :=
  match fields with
  | [] => None
  | (k, v) :: fields' =>
      match lookupField key fields' with
      | Some w => Some w
      | None => if String.eqb k key then Some v else None
      end
  end.

(** [v.key] for the keys the handlers destructure; only an object
    parsed from JSON has such a property. *)
Definition prop (v : json) (key : string) : jsval :=
  match v with
  | JObj fields => lookupField key fields
  | _ => None
  end.

(** [req.body || {}]. *)
Definition bodyOrEmpty (body : jsval) : json :=
  match body with
  | Some v => if truthy body then v else JObj []
  | None => JObj []
  end.

(** What the handler sends: the status and the JSON body. *)
Record response := Response { status : Z; sent : json }.

Definition invalidPayload : response :=
  Response 400 (JObj [("error"%string, JStr "Invalid payload")]).

Section Handlers.

(** The handlers call the engine on the raw values of the payload;
    they are written against the two functions they call. *)
Variable computeWinnerJS : list json → jsval → jsval → json.
Variable getSmartAiMoveJS : list json → jsval → jsval → json.

(** [app.post('/api/winner', ...)] *)
Definition apiWinner (body : jsval) : response :=
  let payload := bodyOrEmpty body in
  let board := prop payload "board" in
  let size := prop payload "size" in
  let winLength := prop payload "winLength" in
  match asArray board with
  | None => invalidPayload
  | Some cells =>
      if negb (truthy size) || negb (truthy winLength) then invalidPayload
      else
        let winner := computeWinnerJS cells size winLength in
        let isDraw :=
          negb (truthy (Some winner))
          && forallb (λ c, negb (isNull c)) cells in
        Response 200 (JObj [("winner"%string, winner);
                            ("isDraw"%string, JBool isDraw)])
  end.

(** [app.post('/api/ai/move', ...)] *)
Definition apiAiMove (body : jsval) : response :=
  let payload := bodyOrEmpty body in
  let board := prop payload "board" in
  let size := prop payload "size" in
  let winLength := prop payload "winLength" in
  match asArray board with
  | None => invalidPayload
  | Some cells =>
      if negb (truthy size) || negb (truthy winLength) then invalidPayload
      else
        let idx := getSmartAiMoveJS cells size winLength in
        Response 200 (JObj [("index"%string, idx)])
  end.

End Handlers.

(** The JSON form of the values of the engine. *)
Definition markJson (m : mark) : json :=
  match m with X => JStr "X" | O => JStr "O" end.

Definition cellJson (c : cell) : json :=
  match c with Some m => markJson m | None => JNull end.

Definition indexJson (i : option nat) : json :=
  match i with Some n => JNum (Z.of_nat n) | None => JNull end.

(** The payload [{ board, size, winLength }] of a board of marks and two
    integers. *)
Definition payloadOf (b : board) (size winLength : Z) : jsval :=
  Some (JObj [("board"%string, JArr (cellJson <$> b));
              ("size"%string, JNum size);
              ("winLength"%string, JNum winLength)]).

End Server.

(** ** Reference notions of the specification *)

(** The cells [(row, col)] of the run of [winLength] cells that starts at
    [(r, c)] and advances by the direction [d]. *)
Definition run_cells (d : Z * Z) (r c winLength : Z) : list (Z * Z) :=
  (λ k, (r + k * d.1, c + k * d.2)) <$> range 0 winLength.

(** A cell of a [size] × [size] board. *)
Definition on_board (size : Z) (p : Z * Z) : Prop :=
  0 ≤ p.1 < size ∧ 0 ≤ p.2 < size.

(** Row-major storage: the cell [(row, col)] is [board[row * size + col]]. *)
Definition cell_at (b : board) (size : Z) (p : Z * Z) : option cell :=
  js_get b (p.1 * size + p.2).

(** A line: a run of exactly [winLength] cells of the board that all
    hold the mark [m]. *)
Definition is_line (b : board) (size winLength : Z) (m : mark)
  (d : Z * Z) (r c : Z) : Prop :=
  Z.of_nat (length (run_cells d r c winLength)) = winLength ∧
  ∀ p, p ∈ run_cells d r c winLength →
       on_board size p ∧ cell_at b size p = Some (Some m).

(** The board has a horizontal, vertical or diagonal line of [m]. *)
Definition has_line (b : board) (size winLength : Z) (m : mark) : Prop :=
  ∃ d r c, d ∈ directions ∧ is_line b size winLength m d r c.

(** The empty cell [i] that, filled with [player], makes the detector
    report [player]. *)
Definition winning_cell (b : board) (size winLength : Z) (player : mark)
  (i : nat) : Prop :=
  b !! i = Some None ∧
  App.computeWinner (<[i := Some player]> b) size winLength = Some player.

(** Relabelling of the two marks. *)
Definition swap_mark (m : mark) : mark :=
  match m with X => O | O => X end.

Definition swap_cell (c : cell) : cell := swap_mark <$> c.

Definition swap_board (b : board) : board := swap_cell <$> b.

(** The board of the scenario: ['X'] at 0 and 1, ['O'] at 3 and 4. *)
Definition scenario_board : board :=
  [Some X; Some X; None; Some O; Some O; None; None; None; None].

(** *** The reference score of a candidate cell *)

(** Row and column of a flattened index. *)
Definition rowcol (size idx : Z) : Z * Z := (idx / size, idx mod size).

(** The center cell: row = col = ⌊size / 2⌋. *)
Definition center (size : Z) : Z * Z := (size / 2, size / 2).

Definition manhattan (p q : Z * Z) : Z :=
  Z.abs (p.1 - q.1) + Z.abs (p.2 - q.2).

Definition center_bonus (size idx : Z) : Z :=
  Z.max 0 (10 - manhattan (rowcol size idx) (center size)).

#[global] Instance on_board_dec size p : Decision (on_board size p).
Proof. unfold on_board. apply _. Defined.

(** Every cell of the board, as a possible start of a window. *)
Definition all_starts (size : Z) : list (Z * Z) :=
  r ← range 0 size; (λ c, (r, c)) <$> range 0 size.

(** The starts of the windows of direction [d] that stay in bounds and
    contain the candidate cell. *)
Definition windows_through (size winLength : Z) (d cand : Z * Z) : list (Z * Z) :=
  filter (λ s, Forall (on_board size) (run_cells d s.1 s.2 winLength) ∧
               cand ∈ run_cells d s.1 s.2 winLength)
    (all_starts size).

(** How many cells of the window [w] hold [m]. *)
Definition count_mark (b : board) (size : Z) (m : mark) (w : list (Z * Z)) : Z :=
  Z.of_nat (length (filter (λ p, cell_at b size p = Some (Some m)) w)).

(** The contribution of one window, the AI mark placed on the
    candidate. *)
Definition window_value (b : board) (size winLength idx : Z)
  (w : list (Z * Z)) : Z :=
  let placed := <[Z.to_nat idx := Some O]> b in
  let aiCount := count_mark placed size O w in
  let opponentCount := count_mark placed size X w in
  if opponentCount =? 0
  then aiCount * aiCount * 25 + (if aiCount =? winLength - 1 then 200 else 0)
  else - (opponentCount * opponentCount * 20)
       - (if opponentCount =? winLength - 1 then 150 else 0).

(** The four directions of a window, as (row step, column step): to the
    right, down, down-right and down-left. *)
Definition window_directions : list (Z * Z) :=
  [(0, 1); (1, 0); (1, 1); (1, -1)].

(** The four corners of the board. *)
Definition corner_cells (size : Z) : list (Z * Z) :=
  [(0, 0); (0, size - 1); (size - 1, 0); (size - 1, size - 1)].

Definition corner_bonus (size idx : Z) : Z :=
  if bool_decide (rowcol size idx ∈ corner_cells size)
  then (if size =? 3 then 15 else 5) else 0.

Definition sumZ (l : list Z) : Z := foldr Z.add 0 l.

Definition reference_score (b : board) (size winLength idx : Z) : Z :=
  center_bonus size idx
  + sumZ (d ← window_directions;
          (λ s, window_value b size winLength idx
                  (run_cells d s.1 s.2 winLength))
            <$> windows_through size winLength d (rowcol size idx))
  + corner_bonus size idx.

(** *** Validation at the remote boundary *)





(** The JavaScript engine functions behave, on a board of marks and two
    integers, as their embedding. *)
Definition engine_modelled
  (computeWinnerJS getSmartAiMoveJS :
     list Server.json → Server.jsval → Server.jsval → Server.json) : Prop :=
  ∀ (b : board) (size winLength : Z),
    computeWinnerJS (Server.cellJson <$> b)
      (Some (Server.JNum size)) (Some (Server.JNum winLength)) =
    Server.cellJson (Server.computeWinner b size winLength) ∧
    getSmartAiMoveJS (Server.cellJson <$> b)
      (Some (Server.JNum size)) (Some (Server.JNum winLength)) =
    Server.indexJson (Server.getSmartAiMove b size winLength).

(** The cell of marks a JSON value stands for. *)
Definition decodeCell (c : Server.json) : cell :=
  match c with
  | Server.JStr s =>
      if String.eqb s "X" then Some X
      else if String.eqb s "O" then Some O else None
  | _ => None
  end.

(** The embedded engine as a function of the raw payload values, for
    payloads of a board of marks and two integers; on any other payload
    it answers [null] and models nothing. *)
Definition typedWinner (cells : list Server.json) (size winLength : Server.jsval)
  : Server.json :=
  match size, winLength with
  | Some (Server.JNum s), Some (Server.JNum w) =>
      Server.cellJson (Server.computeWinner (decodeCell <$> cells) s w)
  | _, _ => Server.JNull
  end.

Definition typedMove (cells : list Server.json) (size winLength : Server.jsval)
  : Server.json :=
  match size, winLength with
  | Some (Server.JNum s), Some (Server.JNum w) =>
      Server.indexJson (Server.getSmartAiMove (decodeCell <$> cells) s w)
  | _, _ => Server.JNull
  end.

(** ** The App component of the UI, [tic-tac-toe/src/App.jsx] *)

Module Ui.

(** The game mode, ['pvp'] or ['ai']. *)
Inductive mode_t := pvp | ai.

#[global] Instance mode_eq_dec : EqDecision mode_t.
Proof. solve_decision. Defined.

(** The [scores] object [{ X, O }]. *)
Record scores_t := Scores { scores_X : Z; scores_O : Z }.

(** The state variables of [App]. *)
Record state := State {
  boardSize : Z;
  board : list cell;
  isXNext : bool;
  winner : cell;
  isDraw : bool;
  mode : mode_t;
  scores : scores_t
}.

(** [const winLength = boardSize === 3 ? 3 : 4] *)
Definition winLength (st : state) : Z :=
  if boardSize st =? 3 then 3 else 4.

(** [Array(size * size).fill(null)] *)
Definition emptyBoard (size : Z) : list cell :=
  replicate (Z.to_nat (size * size)) None.

(** The initial values given to [useState]. *)
Definition initialState : state :=
  State 5 (emptyBoard 5) true None false pvp (Scores 0 0).

(** [!!winner]: a winner is set. *)
Definition hasWinner (st : state) : bool :=
  match winner st with Some _ => true | None => false end.

(** [handleCellClick]; [None] when it returns before any state update. *)
Definition handleCellClick (st : state) (index : nat) : option state :=
  if hasWinner st || isDraw st then None
  else
    match board st !! index with
    | Some None =>
        if bool_decide (mode st = ai) && negb (isXNext st) then None
        else
          let next := <[index := Some (if isXNext st then X else O)]> (board st) in
          Some (State (boardSize st) next (negb (isXNext st))
                  (winner st) (isDraw st) (mode st) (scores st))
    | _ => None
    end.

Definition restartGame (st : state) : state :=
  State (boardSize st) (emptyBoard (boardSize st)) true None false
    (mode st) (scores st).

Definition changeMode (st : state) (newMode : mode_t) : state :=
  State (boardSize st) (emptyBoard (boardSize st)) true None false
    newMode (scores st).

Definition changeBoardSize (st : state) (newSize : Z) : state :=
  State newSize (emptyBoard newSize) true None false (mode st) (scores st).

(** The callback of the timer of the third effect; [None] when
    [getSmartAiMove] gives no index. *)
Definition aiMove (st : state) : option state :=
  match App.getSmartAiMove (board st) (boardSize st) (winLength st) with
  | None => None
  | Some idx =>
      let next := <[idx := Some O]> (board st) in
      Some (State (boardSize st) next true
              (winner st) (isDraw st) (mode st) (scores st))
  end.

(** The third effect arms its timer unless one of its three guards
    returns. *)
Definition aiArmed (st : state) : bool :=
  bool_decide (mode st = ai) && negb (hasWinner st || isDraw st)
  && negb (isXNext st).

(** [setScores((prev) => ({ ...prev, [winner]: prev[winner] + 1 }))],
    guarded by [if (winner)]. *)
Definition bumpScore (w : cell) (sc : scores_t) : scores_t :=
  match w with
  | Some X => Scores (scores_X sc + 1) (scores_O sc)
  | Some O => Scores (scores_X sc) (scores_O sc + 1)
  | None => sc
  end.

(** The effects that follow a state update which replaced the board.
    [prev] is the state of the previous render, [st] the updated state.
    In the render of [st] the first effect computes the winner and the
    draw flag of the new board, and the second effect runs when [winner]
    differs from the previous render; the update of [winner] by the first
    effect gives one more render, in which the second effect runs when
    [winner] changed again. *)
Definition settle (prev st : state) : state :=
  let w := App.computeWinner (board st) (boardSize st) (winLength st) in
  let draw :=
    negb (match w with Some _ => true | None => false end)
    && forallb (λ c, bool_decide (c ≠ None)) (board st) in
  let sc1 :=
    if bool_decide (winner st ≠ winner prev)
    then bumpScore (winner st) (scores st) else scores st in
  let sc2 :=
    if bool_decide (w ≠ winner st) then bumpScore w sc1 else sc1 in
  State (boardSize st) (board st) (isXNext st) w draw (mode st) sc2.

(** The two board-size buttons, [changeBoardSize(3)] and
    [changeBoardSize(5)]. *)
Inductive sizeButton := Size3 | Size5.

Definition sizeOf (s : sizeButton) : Z :=
  match s with Size3 => 3 | Size5 => 5 end.

(** What can happen to the component: a click on the cell [index], one
    of the buttons, or the timer of the AI firing. *)
Inductive event :=
  | Click (index : nat)
  | Restart
  | ChangeMode (newMode : mode_t)
  | ChangeBoardSize (s : sizeButton)
  | AiTimer.

(** One event, with the effects it triggers.  A handler that returns
    early updates nothing and triggers nothing; the timer exists only
    when it is armed. *)
Definition step (st : state) (ev : event) : state :=
  match ev with
  | Click index =>
      match handleCellClick st index with
      | Some st' => settle st st'
      | None => st
      end
  | Restart => settle st (restartGame st)
  | ChangeMode newMode => settle st (changeMode st newMode)
  | ChangeBoardSize s => settle st (changeBoardSize st (sizeOf s))
  | AiTimer =>
      if aiArmed st then
        match aiMove st with
        | Some st' => settle st st'
        | None => st
        end
      else st
  end.

Definition run (evs : list event) : state := fold_left step evs initialState.

(** The [disabled] prop [Board] receives. *)
Definition boardDisabled (st : state) : bool :=
  hasWinner st || isDraw st || (bool_decide (mode st = ai) && negb (isXNext st)).

(** The [disabled] prop [Board] passes to the [Cell] of [value]. *)
Definition cellDisabled (st : state) (value : cell) : bool :=
  boardDisabled st || bool_decide (value ≠ None).

End Ui.

(** How many cells of a board hold [m]. *)
Definition marks (m : mark) (b : board) : nat :=
  length (filter (λ c, c = Some m) b).

(** ** The scoreboard of the server, [server/index.js] *)

Module Scoreboard.

(** The object [scoreboard = { X, O }]. *)
Record scoreboard := Board { score_X : Z; score_O : Z }.

(** [const scoreboard = { X: 0, O: 0 }] *)
Definition initial : scoreboard := Board 0 0.

(** [{ ...scoreboard }] as sent by [res.json]. *)
Definition scoreJson (sb : scoreboard) : Server.json :=
  Server.JObj [("X"%string, Server.JNum (score_X sb));
               ("O"%string, Server.JNum (score_O sb))].

(** [winner === s] for a string literal [s]. *)
Definition isString (v : Server.jsval) (s : string) : bool :=
  match v with
  | Some (Server.JStr t) => String.eqb t s
  | _ => false
  end.

Definition invalidWinner : Server.response :=
  Server.Response 400
    (Server.JObj [("error"%string, Server.JStr "Invalid winner")]).

(** [app.get('/api/score', ...)] *)
Definition apiScore (sb : scoreboard) : scoreboard * Server.response :=
  (sb, Server.Response 200 (scoreJson sb)).

(** [app.post('/api/score/increment', ...)] *)
Definition apiScoreIncrement (body : Server.jsval) (sb : scoreboard)
  : scoreboard * Server.response :=
  let winner := Server.prop (Server.bodyOrEmpty body) "winner" in
  if negb (isString winner "X") && negb (isString winner "O")
  then (sb, invalidWinner)
  else
    let sb' :=
      if isString winner "X"
      then Board (score_X sb + 1) (score_O sb)
      else Board (score_X sb) (score_O sb + 1) in
    (sb', Server.Response 200 (scoreJson sb')).

(** [app.post('/api/score/reset', ...)] *)
Definition apiScoreReset (sb : scoreboard) : scoreboard * Server.response :=
  let sb' := Board 0 0 in
  (sb', Server.Response 200 (scoreJson sb')).

(** A request to one of the three score routes. *)
Inductive request :=
  | GetScore
  | Increment (body : Server.jsval)
  | Reset.

Definition handle (sb : scoreboard) (rq : request) : scoreboard * Server.response :=
  match rq with
  | GetScore => apiScore sb
  | Increment body => apiScoreIncrement body sb
  | Reset => apiScoreReset sb
  end.

(** The scoreboard after a sequence of requests to a fresh server. *)
Definition serve (rqs : list request) : scoreboard :=
  fold_left (λ sb rq, (handle sb rq).1) rqs initial.

End Scoreboard.

(** The body [{ winner: 'X' }] or [{ winner: 'O' }]. *)
Definition winnerBody (m : mark) : Server.jsval :=
  Some (Server.JObj [("winner"%string, Server.markJson m)]).

(** The increments of [m] a sequence of requests asks for since its last
    reset. *)
Fixpoint incrementsSinceReset (m : mark) (rqs : list Scoreboard.request) : Z :=
  match rqs with
  | [] => 0
  | rq :: rqs' =>
      if existsb (λ r, match r with Scoreboard.Reset => true | _ => false end) rqs'
      then incrementsSinceReset m rqs'
      else
        match rq with
        | Scoreboard.Increment body =>
            if Scoreboard.isString
                 (Server.prop (Server.bodyOrEmpty body) "winner")
                 (match m with X => "X" | O => "O" end)
            then 1 + incrementsSinceReset m rqs'
            else incrementsSinceReset m rqs'
        | _ => incrementsSinceReset m rqs'
        end
  end.

(** What holds of the state of the component between two events: the
    board has size × size cells for one of the two sizes of the buttons,
    [winner] and [isDraw] are those of the board, and the marks
    alternate from ['X']. *)
Definition consistent (st : Ui.state) : Prop :=
  Z.of_nat (length (Ui.board st)) = Ui.boardSize st * Ui.boardSize st ∧
  (Ui.boardSize st = 3 ∨ Ui.boardSize st = 5) ∧
  Ui.winner st =
    App.computeWinner (Ui.board st) (Ui.boardSize st) (Ui.winLength st) ∧
  Ui.isDraw st = (negb (Ui.hasWinner st) && bool_decide (None ∉ Ui.board st)) ∧
  marks X (Ui.board st) =
    (marks O (Ui.board st) + (if Ui.isXNext st then 0 else 1))%nat.

(** ** Loops *)

Lemma elem_of_range (lo hi k : Z) : k ∈ range lo hi ↔ lo ≤ k < hi.
Proof. unfold range. rewrite elem_of_seqZ. lia. Qed.

Lemma first_some_Some {A B} (f : A → option B) l y :
  first_some f l = Some y → ∃ a, a ∈ l ∧ f a = Some y.
Proof.
  induction l as [|a l IH]; simpl; [discriminate|].
  destruct (f a) eqn:Hfa.
  - intros [= ->]. exists a. split; [left | done].
  - intros H. destruct (IH H) as (a' & Hin & Ha'). exists a'. split; [by right | done].
Qed.

Lemma first_some_None {A B} (f : A → option B) l :
  first_some f l = None ↔ ∀ a, a ∈ l → f a = None.
Proof.
  induction l as [|a l IH]; simpl.
  - split; [intros _ a Ha; inversion Ha | done].
  - destruct (f a) eqn:Hfa.
    + split; [discriminate|]. intros H. rewrite <- Hfa. apply H. left.
    + rewrite IH. split.
      * intros H a' Ha'. inversion Ha'; subst; auto.
      * intros H a' Ha'. apply H. by right.
Qed.

(** A loop over the indices [0 .. n-1] returns at the least index whose
    body returns. *)
Lemma first_some_seq {B} (f : nat → option B) (n : nat) (y : B) :
  first_some f (seq 0 n) = Some y ↔
  ∃ i, (i < n)%nat ∧ f i = Some y ∧ ∀ j, (j < i)%nat → f j = None.
Proof.
  assert (G : ∀ s, first_some f (seq s n) = Some y ↔
    ∃ i, (s ≤ i < s + n)%nat ∧ f i = Some y ∧ ∀ j, (s ≤ j < i)%nat → f j = None).
  { induction n as [|n IH]; intros s; simpl.
    - split; [discriminate | intros (i & Hi & _); lia].
    - destruct (f s) eqn:Hfs.
      + split.
        * intros [= ->]. exists s. repeat split; [lia | lia | done | intros; lia].
        * intros (i & Hi & Hfi & Hlt).
          destruct (decide (i = s)) as [->|Hne]; [congruence|].
          rewrite Hlt in Hfs by lia. discriminate.
      + rewrite IH. split.
        * intros (i & Hi & Hfi & Hlt). exists i. repeat split; [lia | lia | done |].
          intros j Hj. destruct (decide (j = s)) as [->|]; [done | apply Hlt; lia].
        * intros (i & Hi & Hfi & Hlt). exists i.
          assert (i ≠ s) by congruence.
          repeat split; [lia | lia | done | intros; apply Hlt; lia]. }
  rewrite G. split; intros (i & Hi & Hfi & Hlt); exists i;
    split_and!; first [lia | done | intros; apply Hlt; lia].
Qed.

Lemma or_else_None {A} (x y : option A) :
  or_else x y = None ↔ x = None ∧ y = None.
Proof. destruct x; simpl; split; try discriminate; intuition. Qed.

Lemma or_else_Some {A} (x y : option A) v :
  or_else x y = Some v → x = Some v ∨ y = Some v.
Proof. destruct x; simpl; auto. Qed.

(** ** The win detector *)

Section detect.
Variables (b : board) (size winLength : Z).
Hypothesis winLength_pos : 1 ≤ winLength.

(** A run, cell by cell. *)
Lemma is_line_cells m d r c :
  is_line b size winLength m d r c ↔
  ∀ k, 0 ≤ k < winLength →
    on_board size (r + k * d.1, c + k * d.2) ∧
    js_get b ((r + k * d.1) * size + (c + k * d.2)) = Some (Some m).
Proof using winLength_pos.
  unfold is_line, run_cells, range. rewrite length_fmap, length_seqZ. split.
  - intros [_ H] k Hk. apply (H (r + k * d.1, c + k * d.2)).
    apply list_elem_of_fmap. exists k. split; [done|]. apply elem_of_seqZ. lia.
  - intros H. split; [lia|]. intros p Hp.
    apply list_elem_of_fmap in Hp as (k & -> & Hk). apply elem_of_seqZ in Hk.
    apply H. lia.
Qed.

(** What one window test of [computeWinner] decides. *)
Lemma window_Some i0 step m :
  App.window b winLength i0 step = Some m ↔
  ∀ k, 0 ≤ k < winLength → js_get b (i0 + k * step) = Some (Some m).
Proof using winLength_pos.
  unfold App.window. split.
  - destruct (js_get b i0) as [[v|]|] eqn:E0; try discriminate.
    destruct (forallb _ _) eqn:Hall; [|discriminate].
    intros [= ->] k Hk. destruct (decide (k = 0)) as [->|Hne].
    + by replace (i0 + 0 * step) with i0 by lia.
    + rewrite forallb_forall in Hall.
      specialize (Hall k). unfold is_mark in Hall.
      apply bool_decide_eq_true in Hall; [done|].
      apply list_elem_of_In, elem_of_range. lia.
  - intros H. pose proof (H 0 ltac:(lia)) as H0.
    replace (i0 + 0 * step) with i0 in H0 by lia. rewrite H0.
    assert (Hall : forallb (λ k, is_mark (js_get b (i0 + k * step)) m)
                     (range 1 winLength) = true).
    { apply forallb_forall. intros k Hk.
      apply list_elem_of_In, elem_of_range in Hk.
      unfold is_mark. apply bool_decide_eq_true. apply H. lia. }
    by rewrite Hall.
Qed.

(** The flattened index of the [k]-th cell of a run is the start
    index plus [k] times the step of the scan. *)
Lemma run_index r c k dr dc :
  (r + k * dr) * size + (c + k * dc) = (r * size + c) + k * (dr * size + dc).
Proof. ring. Qed.

(** A window found by one of the scans is a line of the board. *)
Lemma scan_line (outer inner : list Z) (f : Z → Z → Z * Z) d m :
  d ∈ directions →
  (∀ a a', a ∈ outer → a' ∈ inner →
     on_board size (f a a') ∧
     on_board size ((f a a').1 + (winLength - 1) * d.1,
                    (f a a').2 + (winLength - 1) * d.2)) →
  first_some (λ a, first_some (λ a',
      App.window b winLength ((f a a').1 * size + (f a a').2)
        (d.1 * size + d.2)) inner) outer = Some m →
  has_line b size winLength m.
Proof using winLength_pos.
  intros Hd Hok H.
  apply first_some_Some in H as (a & Ha & H).
  apply first_some_Some in H as (a' & Ha' & H).
  destruct (Hok a a' Ha Ha') as [[Hr0 Hc0] [Hr1 Hc1]].
  rewrite window_Some in H.
  exists d, (f a a').1, (f a a').2. split; [done|].
  apply is_line_cells. intros k Hk. rewrite run_index. split; [|by apply H].
  unfold on_board in *; simpl in *.
  unfold directions in Hd. rewrite !elem_of_cons in Hd.
  destruct Hd as [->|[->|[->|[->|Hd]]]]; [..|by inversion Hd]; simpl in *; lia.
Qed.

(** A scan that finds nothing leaves no line among its windows. *)
Lemma scan_no_line (outer inner : list Z) (f : Z → Z → Z * Z) d m a a' :
  first_some (λ a, first_some (λ a',
      App.window b winLength ((f a a').1 * size + (f a a').2)
        (d.1 * size + d.2)) inner) outer = None →
  a ∈ outer → a' ∈ inner →
  ¬ is_line b size winLength m d (f a a').1 (f a a').2.
Proof using winLength_pos.
  intros H Ha Ha' Hline.
  rewrite first_some_None in H. specialize (H a Ha).
  rewrite first_some_None in H. specialize (H a' Ha').
  assert (Hw : App.window b winLength ((f a a').1 * size + (f a a').2)
                 (d.1 * size + d.2) = Some m); [|congruence].
  apply window_Some. intros k Hk. rewrite <- run_index.
  rewrite is_line_cells in Hline. by apply Hline.
Qed.

(** Soundness: a reported winner has a line. *)
Lemma computeWinner_sound m :
  App.computeWinner b size winLength = Some m → has_line b size winLength m.
Proof using winLength_pos.
  unfold App.computeWinner. intros H.
  apply or_else_Some in H as [H|H]; [|apply or_else_Some in H as [H|H];
    [|apply or_else_Some in H as [H|H]]].
  - apply (scan_line (range 0 size) (range 0 (size - winLength + 1))
             (λ r c, (r, c)) (0, 1)); simpl.
    + unfold directions. rewrite !elem_of_cons. auto.
    + intros r c Hr%elem_of_range Hc%elem_of_range. unfold on_board; simpl. lia.
    + by replace (0 * size + 1) with 1 by lia.
  - apply (scan_line (range 0 size) (range 0 (size - winLength + 1))
             (λ c r, (r, c)) (1, 0)); simpl.
    + unfold directions. rewrite !elem_of_cons. auto.
    + intros c r Hc%elem_of_range Hr%elem_of_range. unfold on_board; simpl. lia.
    + by replace (1 * size + 0) with size by lia.
  - apply (scan_line (range 0 (size - winLength + 1)) (range 0 (size - winLength + 1))
             (λ r c, (r, c)) (1, 1)); simpl.
    + unfold directions. rewrite !elem_of_cons. auto.
    + intros r c Hr%elem_of_range Hc%elem_of_range. unfold on_board; simpl. lia.
    + by replace (1 * size + 1) with (size + 1) by lia.
  - apply (scan_line (range 0 (size - winLength + 1)) (range (winLength - 1) size)
             (λ r c, (r, c)) (1, -1)); simpl.
    + unfold directions. rewrite !elem_of_cons. auto 6.
    + intros r c Hr%elem_of_range Hc%elem_of_range. unfold on_board; simpl. lia.
    + by replace (1 * size + -1) with (size - 1) by lia.
Qed.

(** Completeness: when no winner is reported the board has no line. *)
Lemma computeWinner_complete m :
  App.computeWinner b size winLength = None → ¬ has_line b size winLength m.
Proof using winLength_pos.
  unfold App.computeWinner. intros H (d & r & c & Hd & Hline).
  apply or_else_None in H as [Hrow H].
  apply or_else_None in H as [Hcol H].
  apply or_else_None in H as [Hdr Hdl].
  pose proof Hline as Hcells. rewrite is_line_cells in Hcells.
  destruct (Hcells 0 ltac:(lia)) as [[Hr0 Hc0] _].
  destruct (Hcells (winLength - 1) ltac:(lia)) as [[Hr1 Hc1] _].
  unfold directions in Hd. rewrite !elem_of_cons in Hd. simpl in *.
  destruct Hd as [->|[->|[->|[->|Hd]]]]; [..|by inversion Hd]; simpl in *.
  - replace 1 with (0 * size + 1) in Hrow by lia.
    apply (scan_no_line _ _ (λ r c, (r, c)) (0, 1) m r c Hrow);
      [apply elem_of_range; lia | apply elem_of_range; lia | done].
  - assert (Hcol' : first_some (λ c, first_some (λ r,
        App.window b winLength (r * size + c) (1 * size + 0))
        (range 0 (size - winLength + 1))) (range 0 size) = None).
    { by replace (1 * size + 0) with size by lia. }
    apply (scan_no_line _ _ (λ c r, (r, c)) (1, 0) m c r Hcol');
      [apply elem_of_range; lia | apply elem_of_range; lia | done].
  - replace (size + 1) with (1 * size + 1) in Hdr by lia.
    apply (scan_no_line _ _ (λ r c, (r, c)) (1, 1) m r c Hdr);
      [apply elem_of_range; lia | apply elem_of_range; lia | done].
  - replace (size - 1) with (1 * size + -1) in Hdl by lia.
    apply (scan_no_line _ _ (λ r c, (r, c)) (1, -1) m r c Hdl);
      [apply elem_of_range; lia | apply elem_of_range; lia | done].
Qed.

End detect.

(** ** The move selector *)

Section select.
Variables (b : board) (size winLength : Z).

(** The indices collected in [empty] are the empty cells. *)
Lemma elem_of_empty i :
  i ∈ filter (λ i, b !! i = Some None) (seq 0 (length b)) ↔ b !! i = Some None.
Proof.
  rewrite list_elem_of_filter, elem_of_seq. split; [tauto|].
  intros H. split; [done|]. apply lookup_lt_Some in H. lia.
Qed.

Lemma findImmediateMove_body player i y :
  match b !! i with
  | Some None =>
      if bool_decide
           (App.computeWinner (<[i := Some player]> b) size winLength = Some player)
      then Some i else None
  | _ => None
  end = Some y ↔ y = i ∧ winning_cell b size winLength player i.
Proof.
  unfold winning_cell. destruct (b !! i) as [[m|]|]; try (split; [discriminate|]).
  - by intros (_ & ? & _).
  - case_bool_decide; split.
    + intros [= ->]. done.
    + by intros (-> & _).
    + discriminate.
    + by intros (_ & _ & ?).
  - by intros (_ & ? & _).
Qed.

(** [findImmediateMove] returns the least winning cell of [player]. *)
Lemma findImmediateMove_Some player i :
  App.findImmediateMove b size winLength player = Some i ↔
  winning_cell b size winLength player i ∧
  ∀ j, winning_cell b size winLength player j → (i ≤ j)%nat.
Proof.
  unfold App.findImmediateMove. rewrite first_some_seq. split.
  - intros (i' & Hlt & Hi' & Hleast).
    apply findImmediateMove_body in Hi' as [-> Hw]. split; [done|].
    intros j Hj. destruct (decide (i' ≤ j)%nat) as [|Hn]; [done|].
    specialize (Hleast j ltac:(lia)).
    assert (Hs : ∀ o : option nat, o = None → o ≠ Some j) by (intros; congruence).
    exfalso. eapply Hs; [exact Hleast|]. by apply findImmediateMove_body.
  - intros [Hw Hleast]. exists i. split_and!.
    + destruct Hw as [Hw _]. by apply lookup_lt_Some in Hw.
    + by apply findImmediateMove_body.
    + intros j Hj.
      match goal with |- ?t = None => destruct t as [y|] eqn:E; [|done] end.
      apply findImmediateMove_body in E as [-> Hwj].
      specialize (Hleast _ Hwj). lia.
Qed.

Lemma findImmediateMove_None player :
  App.findImmediateMove b size winLength player = None ↔
  ∀ i, ¬ winning_cell b size winLength player i.
Proof.
  unfold App.findImmediateMove. rewrite first_some_None. split.
  - intros H i Hw. pose proof Hw as [Hi _]. apply lookup_lt_Some in Hi.
    specialize (H i). rewrite elem_of_seq in H. specialize (H ltac:(lia)).
    assert (Hs : ∀ o : option nat, o = None → o ≠ Some i) by (intros; congruence).
    eapply Hs; [exact H|]. by apply findImmediateMove_body.
  - intros H i _.
    match goal with |- ?t = None => destruct t as [y|] eqn:E; [|done] end.
    apply findImmediateMove_body in E as [-> Hw]. by destruct (H i).
Qed.

(** When some cell wins for [player], [findImmediateMove] returns. *)
Lemma findImmediateMove_exists player i :
  winning_cell b size winLength player i →
  ∃ i0, App.findImmediateMove b size winLength player = Some i0.
Proof.
  intros Hw. destruct (App.findImmediateMove b size winLength player) eqn:E;
    [by eexists|].
  rewrite findImmediateMove_None in E. by destruct (E i).
Qed.

(** The scoring loop never leaves the cells it iterates over. *)
Lemma best_loop_elem (sc : nat → jsnum) (l : list nat) (st : nat * jsnum) :
  (fold_left (λ '(bestIdx, bestScore) idx,
     if js_gt (sc idx) bestScore then (idx, sc idx) else (bestIdx, bestScore))
     l st).1 ∈ st.1 :: l.
Proof.
  revert st. induction l as [|a l IH]; intros [bi bs]; simpl; [left|].
  specialize (IH (if js_gt (sc a) bs then (a, sc a) else (bi, bs))).
  destruct (js_gt (sc a) bs); simpl in IH; rewrite !elem_of_cons in *; tauto.
Qed.

(** With the immediate tiers out of the way, the selector answers from
    the scoring loop. *)
Lemma getSmartAiMove_heuristic :
  App.findImmediateMove b size winLength O = None →
  App.findImmediateMove b size winLength X = None →
  App.getSmartAiMove b size winLength =
  match filter (λ i, b !! i = Some None) (seq 0 (length b)) with
  | [] => None
  | e0 :: _ =>
      Some (fold_left (λ '(bestIdx, bestScore) idx,
              let score := App.evaluateCell b size winLength (Z.of_nat idx)
                             (App.getCenterIndex size) in
              if js_gt score bestScore then (idx, score) else (bestIdx, bestScore))
              (filter (λ i, b !! i = Some None) (seq 0 (length b)))
              (e0, NegInf)).1
  end.
Proof.
  intros HO HX. unfold App.getSmartAiMove. rewrite HO, HX.
  destruct (filter _ _) as [|e0 l]; [done|].
  by destruct (fold_left _ _ _).
Qed.

(** Whatever the tier, a returned index is an empty cell. *)
Lemma getSmartAiMove_empty i :
  App.getSmartAiMove b size winLength = Some i → b !! i = Some None.
Proof.
  destruct (App.findImmediateMove b size winLength O) as [w|] eqn:HO.
  { unfold App.getSmartAiMove. rewrite HO. intros [= ->].
    apply findImmediateMove_Some in HO. apply HO. }
  destruct (App.findImmediateMove b size winLength X) as [w|] eqn:HX.
  { unfold App.getSmartAiMove. rewrite HO, HX. intros [= ->].
    apply findImmediateMove_Some in HX. apply HX. }
  rewrite getSmartAiMove_heuristic by done.
  destruct (filter _ _) as [|e0 l] eqn:E; [discriminate|].
  intros Hi. apply (inj Some) in Hi. subst i. apply elem_of_empty. rewrite E.
  assert (H : ∀ x, x ∈ e0 :: e0 :: l → x ∈ e0 :: l)
    by (intros x; rewrite !elem_of_cons; tauto).
  apply H.
  apply (best_loop_elem
           (λ idx, App.evaluateCell b size winLength (Z.of_nat idx)
                     (App.getCenterIndex size)) (e0 :: l) (e0, NegInf)).
Qed.

(** With an empty cell on the board the selector returns a move. *)
Lemma getSmartAiMove_is_Some i :
  b !! i = Some None → is_Some (App.getSmartAiMove b size winLength).
Proof.
  intros Hi.
  destruct (App.findImmediateMove b size winLength O) as [w|] eqn:HO.
  { unfold App.getSmartAiMove. rewrite HO. by eexists. }
  destruct (App.findImmediateMove b size winLength X) as [w|] eqn:HX.
  { unfold App.getSmartAiMove. rewrite HO, HX. by eexists. }
  rewrite getSmartAiMove_heuristic by done.
  apply elem_of_empty in Hi.
  destruct (filter _ _) as [|e0 l]; [by inversion Hi | by eexists].
Qed.

End select.

(** ** Relabelling the marks *)

Lemma js_get_swap (b : board) i :
  js_get (swap_board b) i = swap_cell <$> js_get b i.
Proof.
  unfold js_get, swap_board. destruct (0 <=? i); [|done]. apply list_lookup_fmap.
Qed.

Lemma is_mark_swap (v : option cell) m :
  is_mark (swap_cell <$> v) (swap_mark m) = is_mark v m.
Proof. by destruct v as [[[]|]|], m. Qed.

Lemma first_some_fmap {A B C} (g : B → C) (f : A → option B) (f' : A → option C) l :
  (∀ a, f' a = g <$> f a) → first_some f' l = g <$> first_some f l.
Proof.
  intros H. induction l as [|a l IH]; simpl; [done|].
  rewrite H. destruct (f a); simpl; [done | apply IH].
Qed.

Lemma or_else_fmap {A B} (g : A → B) (x y : option A) :
  or_else (g <$> x) (g <$> y) = g <$> or_else x y.
Proof. by destruct x. Qed.

Lemma window_swap (b : board) winLength i0 step :
  App.window (swap_board b) winLength i0 step =
  swap_mark <$> App.window b winLength i0 step.
Proof.
  unfold App.window. rewrite js_get_swap.
  destruct (js_get b i0) as [[v|]|]; simpl; [|done..].
  assert (E : forallb (λ k, is_mark (js_get (swap_board b) (i0 + k * step))
                             (swap_mark v)) (range 1 winLength) =
              forallb (λ k, is_mark (js_get b (i0 + k * step)) v)
                (range 1 winLength)).
  { induction (range 1 winLength) as [|k l IH]; simpl; [done|].
    by rewrite js_get_swap, is_mark_swap, IH. }
  rewrite E.
  match goal with |- context [forallb ?f ?l] => by destruct (forallb f l) end.
Qed.

Lemma scan_swap (b : board) winLength (outer inner : list Z) (i0 : Z → Z → Z) step :
  first_some (λ a, first_some (λ a',
      App.window (swap_board b) winLength (i0 a a') step) inner) outer =
  swap_mark <$> first_some (λ a, first_some (λ a',
      App.window b winLength (i0 a a') step) inner) outer.
Proof.
  apply first_some_fmap. intros a.
  apply first_some_fmap. intros a'. apply window_swap.
Qed.

(** ** The score of a cell *)

Lemma sumZ_cons (a : Z) (l : list Z) : sumZ (a :: l) = a + sumZ l.
Proof. done. Qed.

Lemma sumZ_app (l k : list Z) : sumZ (l ++ k) = sumZ l + sumZ k.
Proof. induction l as [|a l IH]; simpl; [done|]. rewrite IH. lia. Qed.

Lemma sumZ_perm (l k : list Z) : l ≡ₚ k → sumZ l = sumZ k.
Proof.
  induction 1 as [|a l k _ IH|a a' l|l k k' _ IH1 _ IH2]; simpl; lia.
Qed.

Lemma sumZ_filter {A} (P : A → Prop) `{∀ a, Decision (P a)} (f : A → Z) l :
  sumZ ((λ a, if decide (P a) then f a else 0) <$> l) = sumZ (f <$> filter P l).
Proof.
  induction l as [|a l IH]; [done|].
  rewrite fmap_cons, sumZ_cons, IH, filter_cons.
  destruct (decide (P a)); [rewrite fmap_cons, sumZ_cons|]; lia.
Qed.

(** A loop that only adds to its accumulator computes a sum. *)
Lemma fold_left_sum {A} (g : Z → A → Z) (l : list A) (acc : Z) :
  (∀ acc a, g acc a = acc + g 0 a) →
  fold_left g l acc = acc + sumZ (g 0 <$> l).
Proof.
  intros Hg. revert acc. induction l as [|a l IH]; intros acc; [simpl; lia|].
  rewrite fmap_cons, sumZ_cons. cbn [fold_left]. rewrite IH, (Hg acc a). lia.
Qed.

Lemma scoreWindow_add (b : board) size winLength idx dr dc score t :
  App.scoreWindow b size winLength idx dr dc score t =
  score + App.scoreWindow b size winLength idx dr dc 0 t.
Proof.
  unfold App.scoreWindow.
  destruct (App.windowCells _ _ _ _ _ _ _) as [cells|]; [|lia].
  destruct (negb _); [lia|].
  destruct (App.countMarks b idx cells) as [countO countX].
  repeat match goal with |- context [if ?c then _ else _] => destruct c end; lia.
Qed.

(** Reading the board on which the candidate has been filled. *)
Lemma js_get_insert (b : board) (idx pos : Z) (v : cell) :
  0 ≤ idx < Z.of_nat (length b) →
  js_get (<[Z.to_nat idx := v]> b) pos =
  if pos =? idx then Some v else js_get b pos.
Proof.
  intros Hidx. unfold js_get. destruct (Z.eqb_spec pos idx) as [->|Hne].
  - destruct (Z.leb_spec 0 idx); [|lia]. apply list_lookup_insert_eq. lia.
  - destruct (0 <=? pos) eqn:Hpos; [|done].
    apply list_lookup_insert_ne. apply Z.leb_le in Hpos. lia.
Qed.

(** The counting loop counts the marks of the window on the board with
    the candidate filled. *)
Lemma countMarks_count (b : board) (size idx : Z) (w : list (Z * Z)) :
  0 ≤ idx < Z.of_nat (length b) →
  App.countMarks b idx ((λ p, p.1 * size + p.2) <$> w) =
  (count_mark (<[Z.to_nat idx := Some O]> b) size O w,
   count_mark (<[Z.to_nat idx := Some O]> b) size X w).
Proof.
  intros Hidx. unfold App.countMarks.
  set (step := λ '(countO, countX) pos, _).
  assert (G : ∀ acc : Z * Z,
    fold_left step ((λ p, p.1 * size + p.2) <$> w) acc =
    (acc.1 + count_mark (<[Z.to_nat idx := Some O]> b) size O w,
     acc.2 + count_mark (<[Z.to_nat idx := Some O]> b) size X w)).
  { induction w as [|p w IH]; intros [cO cX].
    - unfold count_mark; simpl. f_equal; lia.
    - rewrite fmap_cons. cbn [fold_left]. rewrite IH.
      unfold count_mark, cell_at. rewrite !filter_cons.
      rewrite (js_get_insert b idx (p.1 * size + p.2) (Some O) Hidx).
      unfold step, is_mark.
      destruct (p.1 * size + p.2 =? idx);
        [|destruct (js_get b (p.1 * size + p.2)) as [[[]|]|]];
        repeat (first [rewrite bool_decide_eq_true_2 by done
                      |rewrite bool_decide_eq_false_2 by done
                      |rewrite decide_True by done
                      |rewrite decide_False by done]);
        cbn [fst snd length]; f_equal; lia. }
  rewrite G. simpl. f_equal; lia.
Qed.

Lemma run_cells_shift (d : Z * Z) row col t winLength :
  run_cells d (row + t * d.1) (col + t * d.2) winLength =
  (λ k, (row + (t + k) * d.1, col + (t + k) * d.2)) <$> range 0 winLength.
Proof.
  unfold run_cells. apply Forall_fmap_ext_1, Forall_forall.
  intros k _. f_equal; ring.
Qed.

(** The inner loop collects the flattened cells of the window, unless
    one of them is off the board. *)
Lemma windowCells_run size dr dc row col t ks :
  App.windowCells size dr dc row col t ks =
  if decide (Forall (on_board size)
               ((λ k, (row + (t + k) * dr, col + (t + k) * dc)) <$> ks))
  then Some ((λ p, p.1 * size + p.2) <$>
               ((λ k, (row + (t + k) * dr, col + (t + k) * dc)) <$> ks))
  else None.
Proof.
  induction ks as [|k ks IH].
  - cbn [App.windowCells]. rewrite fmap_nil. by rewrite decide_True by constructor.
  - cbn [App.windowCells]. rewrite IH, !fmap_cons.
    destruct (decide (Forall _ (_ :: _))) as [Hall|Hnot].
    + apply Forall_cons_1 in Hall as [[Hr Hc] Hall]. simpl in Hr, Hc.
      destruct (Z.ltb_spec (row + (t + k) * dr) 0); [lia|].
      destruct (Z.leb_spec size (row + (t + k) * dr)); [lia|].
      destruct (Z.ltb_spec (col + (t + k) * dc) 0); [lia|].
      destruct (Z.leb_spec size (col + (t + k) * dc)); [lia|].
      simpl. by rewrite decide_True by done.
    + destruct (Z.ltb_spec (row + (t + k) * dr) 0); [done|].
      destruct (Z.leb_spec size (row + (t + k) * dr)); [done|].
      destruct (Z.ltb_spec (col + (t + k) * dc) 0); [done|].
      destruct (Z.leb_spec size (col + (t + k) * dc)); [done|].
      simpl. rewrite decide_False; [done|].
      intros Hall. apply Hnot. constructor; [|done].
      unfold on_board; simpl; lia.
Qed.

Section score.
Variables (b : board) (size winLength idx : Z).
Hypothesis size_pos : 1 ≤ size.
Hypothesis idx_cell : 0 ≤ idx < size * size.
Hypothesis board_len : Z.of_nat (length b) = size * size.

Lemma rowcol_on_board : on_board size (rowcol size idx).
Proof.
  unfold on_board, rowcol; simpl. split.
  - split; [apply Z.div_pos; lia | apply Z.div_lt_upper_bound; lia].
  - apply Z.mod_pos_bound. lia.
Qed.

Lemma rowcol_index : (rowcol size idx).1 * size + (rowcol size idx).2 = idx.
Proof.
  unfold rowcol; simpl. rewrite (Z.div_mod idx size) at 3 by lia. lia.
Qed.

Lemma rem_col : Z.rem idx size = (rowcol size idx).2.
Proof. apply Z.rem_mod_nonneg; lia. Qed.

(** On the board, equal flattened indices are equal cells. *)
Lemma flat_inj (p q : Z * Z) :
  on_board size p → on_board size q →
  p.1 * size + p.2 = q.1 * size + q.2 → p = q.
Proof.
  destruct p as [r c], q as [r' c']. unfold on_board; simpl.
  intros Hp Hq Heq. assert (r = r') by nia. subst. f_equal. lia.
Qed.

(** One iteration of the [t] loop adds the value of the window that
    starts [t] steps from the candidate, when that window is on the
    board. *)
Lemma scoreWindow_value d t :
  - (winLength - 1) ≤ t ≤ 0 →
  App.scoreWindow b size winLength idx d.1 d.2 0 t =
  if decide (Forall (on_board size)
               (run_cells d ((rowcol size idx).1 + t * d.1)
                  ((rowcol size idx).2 + t * d.2) winLength))
  then window_value b size winLength idx
         (run_cells d ((rowcol size idx).1 + t * d.1)
            ((rowcol size idx).2 + t * d.2) winLength)
  else 0.
Proof.
  intros Ht. unfold App.scoreWindow.
  rewrite rem_col, windowCells_run.
  change (idx / size) with (rowcol size idx).1.
  rewrite <- (run_cells_shift d).
  set (w := run_cells d _ _ winLength).
  destruct (decide (Forall (on_board size) w)) as [Hall|]; [|done].
  assert (Hin : existsb (Z.eqb idx) ((λ p, p.1 * size + p.2) <$> w) = true).
  { apply existsb_exists. exists idx. split; [|apply Z.eqb_refl].
    apply list_elem_of_In, list_elem_of_fmap. exists (rowcol size idx).
    split; [by rewrite rowcol_index|].
    unfold w, run_cells. apply list_elem_of_fmap. exists (- t). split.
    - destruct (rowcol size idx); simpl. f_equal; ring.
    - apply elem_of_range. lia. }
  rewrite Hin. cbn [negb]. rewrite countMarks_count by lia.
  unfold window_value.
  repeat match goal with |- context [if ?c then _ else _] => destruct c end; lia.
Qed.

Lemma NoDup_all_starts : NoDup (all_starts size).
Proof.
  unfold all_starts. apply NoDup_bind.
  - intros r r' p _ _ (c & -> & _)%list_elem_of_fmap (c' & [= -> _] & _)%list_elem_of_fmap.
    done.
  - intros r _. apply NoDup_fmap_2_strong; [|apply NoDup_seqZ].
    by intros c c' _ _ [= ->].
  - apply NoDup_seqZ.
Qed.

Lemma elem_of_all_starts p : p ∈ all_starts size ↔ on_board size p.
Proof.
  unfold all_starts, on_board. rewrite list_elem_of_bind. split.
  - intros (r & (c & -> & Hc%elem_of_range)%list_elem_of_fmap & Hr%elem_of_range).
    simpl. lia.
  - intros [Hr Hc]. exists p.1. split; [|apply elem_of_range; lia].
    apply list_elem_of_fmap. exists p.2. split; [by destruct p|].
    apply elem_of_range. lia.
Qed.

(** The windows the [t] loop visits are the windows of the board that
    contain the candidate. *)
Lemma windows_through_offsets d :
  d ∈ window_directions →
  filter (λ s, Forall (on_board size) (run_cells d s.1 s.2 winLength))
    ((λ t, ((rowcol size idx).1 + t * d.1, (rowcol size idx).2 + t * d.2))
       <$> range (- (winLength - 1)) 1)
  ≡ₚ windows_through size winLength d (rowcol size idx).
Proof.
  intros Hd.
  assert (Hdir : d.1 = 1 ∨ d.2 = 1).
  { unfold window_directions in Hd. rewrite !elem_of_cons in Hd.
    destruct Hd as [->|[->|[->|[->|Hd]]]]; [..|by inversion Hd]; simpl; auto. }
  apply NoDup_Permutation.
  - apply NoDup_filter, NoDup_fmap_2_strong; [|apply NoDup_seqZ].
    intros t t' _ _ [= H1 H2]. destruct Hdir as [E|E]; rewrite E in *; lia.
  - apply NoDup_filter, NoDup_all_starts.
  - intros s. unfold windows_through.
    rewrite !list_elem_of_filter, elem_of_all_starts, list_elem_of_fmap.
    unfold run_cells at 3. rewrite list_elem_of_fmap. split.
    + intros (Hall & t & -> & Ht%elem_of_range).
      split_and!; [done| |].
      * exists (- t). split; [|apply elem_of_range; lia].
        destruct (rowcol size idx) as [r0 c0]; simpl. f_equal; ring.
      * rewrite Forall_forall in Hall.
        assert (Hon : on_board size
                  ((rowcol size idx).1 + t * d.1 + 0 * d.1,
                   (rowcol size idx).2 + t * d.2 + 0 * d.2)).
        { apply Hall. unfold run_cells. apply list_elem_of_fmap. exists 0.
          split; [done|]. apply elem_of_range. lia. }
        unfold on_board in *; simpl in *. lia.
    + intros ((Hall & k & Hk & Hkr%elem_of_range) & _). split; [done|].
      exists (- k). split; [|apply elem_of_range; lia].
      rewrite Hk. simpl. destruct s as [r c]; simpl. f_equal; ring.
Qed.

(** The [t] loop of one direction adds the values of the windows of
    that direction through the candidate. *)
Lemma direction_loop d score :
  d ∈ window_directions →
  fold_left (App.scoreWindow b size winLength idx d.1 d.2)
    (range (- (winLength - 1)) 1) score =
  score + sumZ ((λ s, window_value b size winLength idx
                        (run_cells d s.1 s.2 winLength))
                  <$> windows_through size winLength d (rowcol size idx)).
Proof.
  intros Hd. rewrite fold_left_sum by (intros; apply scoreWindow_add).
  f_equal.
  rewrite <- (sumZ_perm _ _ (fmap_Permutation _ _ _ (windows_through_offsets d Hd))).
  rewrite <- sumZ_filter, <- list_fmap_compose. f_equal.
  apply Forall_fmap_ext_1, Forall_forall. intros t Ht%elem_of_range.
  rewrite scoreWindow_value by lia. done.
Qed.

(** The center index unflattens to row = col = ⌊size / 2⌋. *)
Lemma center_rowcol :
  App.getCenterIndex size / size = (center size).1 ∧
  Z.rem (App.getCenterIndex size) size = (center size).2.
Proof.
  unfold App.getCenterIndex, center; simpl.
  assert (Hh : 0 ≤ size / 2 < size).
  { split; [apply Z.div_pos; lia | apply Z.div_lt; lia]. }
  split.
  - rewrite Z.div_add_l by lia. rewrite (Z.div_small (size / 2) size) by lia. lia.
  - rewrite Z.rem_mod_nonneg by nia.
    rewrite Z.add_comm, Z.mod_add by lia. apply Z.mod_small. lia.
Qed.

(** The four corner indices are the four corner cells. *)
Lemma corner_index :
  existsb (Z.eqb idx) [0; size - 1; size * (size - 1); size * size - 1] =
  bool_decide (rowcol size idx ∈ corner_cells size).
Proof.
  pose proof rowcol_on_board as [Hr Hc]. pose proof rowcol_index as Hi.
  destruct (rowcol size idx) as [r c]. simpl in Hr, Hc, Hi.
  apply eq_true_iff_eq. rewrite bool_decide_eq_true. unfold corner_cells.
  cbn [existsb]. rewrite !orb_true_iff, !Z.eqb_eq, !elem_of_cons, elem_of_nil.
  rewrite !pair_equal_spec.
  assert (Hcorner : ∀ r' c', 0 ≤ r' < size → 0 ≤ c' < size →
            idx = r' * size + c' ↔ r = r' ∧ c = c').
  { intros r' c' Hr' Hc'. split; [|intros [-> ->]; lia].
    intros E. assert (Heq : (r, c) = (r', c')); [|by injection Heq].
    apply flat_inj; unfold on_board; simpl; [done..|lia]. }
  rewrite <- !Hcorner by lia.
  split; (intros [H|[H|[H|[H|H]]]]; [| | | |done]); rewrite H;
    [left|right; left|right; right; left|right; right; right; left
    |left|right; left|right; right; left|right; right; right; left]; ring.
Qed.

(** [evaluateCell] computes the reference score. *)
Lemma evaluateCell_reference_score :
  App.evaluateCell b size winLength idx (App.getCenterIndex size) =
  Num (reference_score b size winLength idx).
Proof.
  unfold App.evaluateCell. destruct (Z.eqb_spec size 0) as [|_]; [lia|].
  f_equal. cbv zeta.
  destruct center_rowcol as [-> ->]. rewrite rem_col, corner_index.
  unfold directions. cbn [fold_left].
  pose proof (direction_loop (0, 1)) as H1.
  pose proof (direction_loop (1, 0)) as H2.
  pose proof (direction_loop (1, 1)) as H3.
  pose proof (direction_loop (1, -1)) as H4.
  cbn [fst snd] in H1, H2, H3, H4.
  rewrite H1, H2, H3, H4 by (unfold window_directions; rewrite !elem_of_cons; auto 6).
  unfold reference_score, window_directions.
  rewrite 3!bind_cons, bind_singleton, !sumZ_app.
  unfold center_bonus, manhattan, corner_bonus.
  change (idx / size) with (rowcol size idx).1.
  destruct (bool_decide _); lia.
Qed.

End score.

(** The scoring loop over the cells that satisfy [P], in ascending
    order: it ends on the cell of greatest score, and on the first of
    them when several cells share that score. *)
Lemma best_loop_argmax (sc : nat → jsnum) (g : nat → Z) (P : nat → Prop)
  `{∀ i, Decision (P i)} (n e0 : nat) :
  (∀ i, i ∈ filter P (seq 0 n) → sc i = Num (g i)) →
  (filter P (seq 0 n) = [] ∧
   fold_left (λ '(bestIdx, bestScore) idx,
       if js_gt (sc idx) bestScore then (idx, sc idx) else (bestIdx, bestScore))
     (filter P (seq 0 n)) (e0, NegInf) = (e0, NegInf)) ∨
  (∃ i, fold_left (λ '(bestIdx, bestScore) idx,
            if js_gt (sc idx) bestScore then (idx, sc idx) else (bestIdx, bestScore))
          (filter P (seq 0 n)) (e0, NegInf) = (i, Num (g i)) ∧
        i ∈ filter P (seq 0 n) ∧
        ∀ j, j ∈ filter P (seq 0 n) →
             g j ≤ g i ∧ ((j < i)%nat → g j < g i)).
Proof.
  induction n as [|n IH]; intros Hsc; [by left|].
  rewrite seq_S, filter_app in *. cbn [Nat.add] in *.
  assert (Hsc' : ∀ i, i ∈ filter P (seq 0 n) → sc i = Num (g i)).
  { intros i Hi. apply Hsc, elem_of_app. by left. }
  specialize (IH Hsc').
  destruct (decide (P n)) as [HP|HP].
  - rewrite (filter_cons_True P n []) in * by done. rewrite filter_nil in *.
    right. rewrite fold_left_app. cbn [fold_left].
    assert (Hn : sc n = Num (g n)).
    { apply Hsc. apply elem_of_app. right. left. }
    destruct IH as [[Hnil ->]|(i & -> & Hi & Hmax)].
    + rewrite Hn, Hnil. simpl. exists n. split_and!; [done|left|].
      intros j Hj. apply list_elem_of_singleton in Hj as ->. lia.
    + rewrite Hn. cbn [js_gt].
      assert (Hlt : (i < n)%nat).
      { apply list_elem_of_filter in Hi as [_ Hi]. apply elem_of_seq in Hi. lia. }
      destruct (Z.ltb_spec (g i) (g n)) as [Hgt|Hle].
      * exists n. split_and!; [done|apply elem_of_app; right; left|].
        intros j [Hj|Hj]%elem_of_app.
        -- destruct (Hmax j Hj). lia.
        -- apply list_elem_of_singleton in Hj as ->. lia.
      * exists i. split_and!; [done|apply elem_of_app; by left|].
        intros j [Hj|Hj]%elem_of_app; [by apply Hmax|].
        apply list_elem_of_singleton in Hj as ->. lia.
  - rewrite (filter_cons_False P n []) in * by done. rewrite filter_nil in *.
    rewrite app_nil_r in *. by apply IH.
Qed.

(** ** The request handlers *)




(** [board.every((c) => c !== null)] on a board of marks. *)
Lemma every_not_null (b : board) :
  forallb (λ c, negb (Server.isNull c)) (Server.cellJson <$> b) =
  bool_decide (None ∉ b).
Proof.
  induction b as [|[[]|] l IH]; [done|..]; rewrite fmap_cons; cbn [forallb];
    rewrite IH; cbn; apply eq_true_iff_eq;
    rewrite ?andb_true_iff, !bool_decide_eq_true, not_elem_of_cons;
    intuition congruence.
Qed.

(** On the payload of a board of marks with non-zero size and winLength
    the winner handler answers with the winner of the embedded engine
    and with the draw flag: no winner and no empty cell. *)
Lemma apiWinner_payloadOf computeWinnerJS getSmartAiMoveJS
  (b : board) (size winLength : Z) :
  engine_modelled computeWinnerJS getSmartAiMoveJS →
  size ≠ 0 → winLength ≠ 0 →
  Server.apiWinner computeWinnerJS (Server.payloadOf b size winLength) =
  Server.Response 200 (Server.JObj
    [("winner"%string, Server.cellJson (Server.computeWinner b size winLength));
     ("isDraw"%string,
      Server.JBool (bool_decide (Server.computeWinner b size winLength = None) &&
                    bool_decide (None ∉ b)))]) ∧
  Server.apiAiMove getSmartAiMoveJS (Server.payloadOf b size winLength) =
  Server.Response 200 (Server.JObj
    [("index"%string, Server.indexJson (Server.getSmartAiMove b size winLength))]).
Proof.
  intros Hmodel Hsize Hwl. destruct (Hmodel b size winLength) as [Hcw Hmv].
  unfold Server.apiWinner, Server.apiAiMove, Server.payloadOf. cbn.
  destruct (Z.eqb_spec size 0) as [|_]; [done|].
  destruct (Z.eqb_spec winLength 0) as [|_]; [done|]. cbn.
  rewrite Hcw, Hmv. split; [|done]. do 4 f_equal.
  rewrite every_not_null. by destruct (Server.computeWinner b size winLength) as [[]|].
Qed.

Lemma decodeCell_cellJson (b : board) : decodeCell <$> (Server.cellJson <$> b) = b.
Proof.
  induction b as [|[[]|] l IH]; [done|..]; rewrite !fmap_cons, IH; done.
Qed.

(** The typed engine is an engine the embedding models. *)
Lemma engine_modelled_typed : engine_modelled typedWinner typedMove.
Proof.
  intros b size winLength. unfold typedWinner, typedMove.
  by rewrite decodeCell_cellJson.
Qed.

(** A negative [winLength] is truthy, so it passes the validation and
    reaches the engine: a single ['X'] is then answered as the winner. *)
Example apiWinner_negative_winLength :
  Server.apiWinner typedWinner
    (Server.payloadOf [Some X; None; None; None; None; None; None; None; None]
       3 (-1)) =
  Server.Response 200 (Server.JObj
    [("winner"%string, Server.JStr "X"); ("isDraw"%string, Server.JBool false)]).
Proof. reflexivity. Qed.

(** ** The claims *)

(** C1 (as amended): for every board, size and winLength ≥ 1,
    [computeWinner] returns none exactly when the board has no
    horizontal, vertical or diagonal run of [winLength] identical marks,
    and when some run exists it returns a mark, and every mark it
    returns is the mark of such a run. *)
Theorem computeWinner_sound_complete (b : board) (size winLength : Z) :
  1 ≤ winLength →
  ((∀ m, ¬ has_line b size winLength m) →
     App.computeWinner b size winLength = None) ∧
  (∀ m, has_line b size winLength m →
     ∃ m', App.computeWinner b size winLength = Some m' ∧
           has_line b size winLength m') ∧
  (∀ m, App.computeWinner b size winLength = Some m →
     has_line b size winLength m).
Proof.
  intros Hwl. split_and!.
  - intros Hno. destruct (App.computeWinner b size winLength) as [m|] eqn:E; [|done].
    destruct (Hno m). by apply computeWinner_sound.
  - intros m Hline. destruct (App.computeWinner b size winLength) as [m'|] eqn:E.
    + exists m'. split; [done|]. by apply computeWinner_sound.
    + by destruct (computeWinner_complete b size winLength Hwl m).
  - intros m. by apply computeWinner_sound.
Qed.

Lemma computeWinner_sound_complete_witness :
  ((∀ m, ¬ has_line scenario_board 3 3 m) →
     App.computeWinner scenario_board 3 3 = None) ∧
  (∀ m, has_line scenario_board 3 3 m →
     ∃ m', App.computeWinner scenario_board 3 3 = Some m' ∧
           has_line scenario_board 3 3 m') ∧
  (∀ m, App.computeWinner scenario_board 3 3 = Some m →
     has_line scenario_board 3 3 m).
Proof. apply (computeWinner_sound_complete scenario_board 3 3). lia. Defined.

(** C1 as stated fails: with [winLength = -1] no run of [winLength]
    cells exists, yet a single ['X'] on the board is reported as the
    winner, because the comparison loop [k = 1 .. winLength - 1] is
    empty. *)
Lemma computeWinner_nonpositive_winLength :
  ¬ (∀ (b : board) (size winLength : Z),
       ((∀ m, ¬ has_line b size winLength m) →
          App.computeWinner b size winLength = None) ∧
       (∀ m, has_line b size winLength m →
          ∃ m', App.computeWinner b size winLength = Some m' ∧
                has_line b size winLength m')).
Proof.
  intros H.
  destruct (H [Some X; None; None; None; None; None; None; None; None] 3 (-1))
    as [Hnone _].
  assert (Hno : ∀ m, ¬ has_line
            [Some X; None; None; None; None; None; None; None; None] 3 (-1) m).
  { intros m (d & r & c & _ & Hlen & _).
    unfold run_cells, range in Hlen.
    rewrite length_fmap, length_seqZ in Hlen. lia. }
  specialize (Hnone Hno). vm_compute in Hnone. discriminate.
Qed.

(** C2: for every board (whatever its length, so in particular of
    length size × size) [getSmartAiMove] returns the index of a cell that
    is empty in that board, or none; and it returns none if and only if
    the board has no empty cell. *)
Theorem getSmartAiMove_empty_cell_or_none (b : board) (size winLength : Z) :
  (∀ i, App.getSmartAiMove b size winLength = Some i → b !! i = Some None) ∧
  (App.getSmartAiMove b size winLength = None ↔ ∀ i, b !! i ≠ Some None).
Proof.
  split; [apply getSmartAiMove_empty|]. split.
  - intros Hnone i Hi.
    destruct (getSmartAiMove_is_Some b size winLength i Hi) as [j Hj]. congruence.
  - intros Hfull. destruct (App.getSmartAiMove b size winLength) as [i|] eqn:E; [|done].
    destruct (Hfull i). by apply getSmartAiMove_empty in E.
Qed.

(** C3: when some empty cell, filled with ['O'], makes [computeWinner]
    return ['O'], [getSmartAiMove] returns the lowest-index such cell. *)
Theorem getSmartAiMove_immediate_win (b : board) (size winLength : Z) (i : nat) :
  winning_cell b size winLength O i →
  ∃ i0, App.getSmartAiMove b size winLength = Some i0 ∧
        winning_cell b size winLength O i0 ∧
        ∀ j, winning_cell b size winLength O j → (i0 ≤ j)%nat.
Proof.
  intros Hw. destruct (findImmediateMove_exists b size winLength O i Hw) as [i0 E].
  exists i0. unfold App.getSmartAiMove. rewrite E. split; [done|].
  by apply findImmediateMove_Some.
Qed.

Lemma getSmartAiMove_immediate_win_witness :
  ∃ i0, App.getSmartAiMove scenario_board 3 3 = Some i0 ∧
        winning_cell scenario_board 3 3 O i0 ∧
        ∀ j, winning_cell scenario_board 3 3 O j → (i0 ≤ j)%nat.
Proof.
  apply (getSmartAiMove_immediate_win scenario_board 3 3 5).
  split; reflexivity.
Defined.

(** C4: when no empty cell filled with ['O'] makes [computeWinner] return
    ['O'], but some empty cell filled with ['X'] makes it return ['X'],
    [getSmartAiMove] returns the lowest-index such cell. *)
Theorem getSmartAiMove_immediate_block (b : board) (size winLength : Z) (i : nat) :
  (∀ j, ¬ winning_cell b size winLength O j) →
  winning_cell b size winLength X i →
  ∃ i0, App.getSmartAiMove b size winLength = Some i0 ∧
        winning_cell b size winLength X i0 ∧
        ∀ j, winning_cell b size winLength X j → (i0 ≤ j)%nat.
Proof.
  intros HO Hw. apply findImmediateMove_None in HO.
  destruct (findImmediateMove_exists b size winLength X i Hw) as [i0 E].
  exists i0. unfold App.getSmartAiMove. rewrite HO, E. split; [done|].
  by apply findImmediateMove_Some.
Qed.

Lemma getSmartAiMove_immediate_block_witness :
  ∃ i0, App.getSmartAiMove
          [Some X; Some X; None; Some O; None; None; None; None; None] 3 3
        = Some i0 ∧
        winning_cell [Some X; Some X; None; Some O; None; None; None; None; None]
          3 3 X i0 ∧
        ∀ j, winning_cell [Some X; Some X; None; Some O; None; None; None; None; None]
               3 3 X j → (i0 ≤ j)%nat.
Proof.
  apply (getSmartAiMove_immediate_block
           [Some X; Some X; None; Some O; None; None; None; None; None] 3 3 2).
  - apply findImmediateMove_None. reflexivity.
  - split; reflexivity.
Defined.

(** C5 (as amended): on the scenario board the selector, in the UI and in
    the server, returns index 5: the cell that completes the row 3,4,5 of
    ['O'] is found by the first tier, before the block of ['X'] at index 2
    that the second tier would find. *)
Theorem scenario_takes_own_win :
  App.getSmartAiMove scenario_board 3 3 = Some 5%nat ∧
  Server.getSmartAiMove scenario_board 3 3 = Some 5%nat ∧
  App.findImmediateMove scenario_board 3 3 O = Some 5%nat ∧
  App.findImmediateMove scenario_board 3 3 X = Some 2%nat.
Proof. repeat split; reflexivity. Qed.

(** C5 as stated fails: the selector does not return index 2. *)
Lemma scenario_does_not_block :
  App.getSmartAiMove scenario_board 3 3 ≠ Some 2%nat ∧
  Server.getSmartAiMove scenario_board 3 3 ≠ Some 2%nat.
Proof. split; vm_compute; discriminate. Qed.

(** C6: on a size × size board, the score [evaluateCell] gives to a cell
    is the reference score: the center proximity max(0, 10 − Manhattan
    distance to (⌊size/2⌋, ⌊size/2⌋)), plus the value of every in-bounds
    window of [winLength] cells through the cell in the four directions
    (the cell counted as an AI mark), plus the corner bonus; and in the
    heuristic tier [getSmartAiMove] returns the empty cell of greatest
    score, the one of lowest index when several share it. *)
Theorem evaluateCell_reference (b : board) (size winLength : Z) :
  1 ≤ size →
  Z.of_nat (length b) = size * size →
  (∀ idx, 0 ≤ idx < size * size →
     App.evaluateCell b size winLength idx (App.getCenterIndex size) =
     Num (reference_score b size winLength idx)) ∧
  ((∀ j, ¬ winning_cell b size winLength O j) →
   (∀ j, ¬ winning_cell b size winLength X j) →
   ∀ e, b !! e = Some None →
   ∃ i, App.getSmartAiMove b size winLength = Some i ∧
        b !! i = Some None ∧
        ∀ j, b !! j = Some None →
          reference_score b size winLength (Z.of_nat j)
            ≤ reference_score b size winLength (Z.of_nat i) ∧
          ((j < i)%nat →
           reference_score b size winLength (Z.of_nat j)
             < reference_score b size winLength (Z.of_nat i))).
Proof.
  intros Hsize Hlen. split.
  - intros idx Hidx. by apply evaluateCell_reference_score.
  - intros HO%findImmediateMove_None HX%findImmediateMove_None e He.
    rewrite getSmartAiMove_heuristic by done.
    apply elem_of_empty in He.
    destruct (filter _ _) as [|e0 l] eqn:E; [by inversion He|].
    cbv beta iota zeta. rewrite <- E.
    destruct (best_loop_argmax
      (λ idx, App.evaluateCell b size winLength (Z.of_nat idx)
                (App.getCenterIndex size))
      (λ idx, reference_score b size winLength (Z.of_nat idx))
      (λ i, b !! i = Some None) (length b) e0) as [[Hnil _]|(i & Hi & Hin & Hmax)].
    + intros i Hi%elem_of_empty. apply evaluateCell_reference_score; [done| |done].
      apply lookup_lt_Some in Hi. lia.
    + congruence.
    + cbv beta in Hi. exists i. rewrite Hi. split_and!; [done|by apply elem_of_empty|].
      intros j Hj%elem_of_empty. by apply Hmax.
Qed.

Lemma evaluateCell_reference_witness :
  (∀ idx, 0 ≤ idx < 3 * 3 →
     App.evaluateCell [None; None; None; None; Some X; None; None; None; None]
       3 3 idx (App.getCenterIndex 3) =
     Num (reference_score
            [None; None; None; None; Some X; None; None; None; None] 3 3 idx)) ∧
  ((∀ j, ¬ winning_cell
             [None; None; None; None; Some X; None; None; None; None] 3 3 O j) →
   (∀ j, ¬ winning_cell
             [None; None; None; None; Some X; None; None; None; None] 3 3 X j) →
   ∀ e, [None; None; None; None; Some X; None; None; None; None] !! e = Some None →
   ∃ i, App.getSmartAiMove
          [None; None; None; None; Some X; None; None; None; None] 3 3 = Some i ∧
        [None; None; None; None; Some X; None; None; None; None] !! i = Some None ∧
        ∀ j, [None; None; None; None; Some X; None; None; None; None] !! j
             = Some None →
          reference_score
            [None; None; None; None; Some X; None; None; None; None] 3 3 (Z.of_nat j)
            ≤ reference_score
                [None; None; None; None; Some X; None; None; None; None] 3 3
                (Z.of_nat i) ∧
          ((j < i)%nat →
           reference_score
             [None; None; None; None; Some X; None; None; None; None] 3 3
             (Z.of_nat j)
             < reference_score
                 [None; None; None; None; Some X; None; None; None; None] 3 3
                 (Z.of_nat i))).
Proof.
  apply (evaluateCell_reference
           [None; None; None; None; Some X; None; None; None; None] 3 3).
  - lia.
  - reflexivity.
Defined.

(** C7: swapping ['X'] and ['O'] in every cell of the board swaps the
    result of [computeWinner]; none stays none. *)
Theorem computeWinner_swap (b : board) (size winLength : Z) :
  App.computeWinner (swap_board b) size winLength =
  swap_mark <$> App.computeWinner b size winLength.
Proof.
  unfold App.computeWinner.
  rewrite (scan_swap b winLength _ _ (λ r c, r * size + c) 1).
  rewrite (scan_swap b winLength _ _ (λ c r, r * size + c) size).
  rewrite (scan_swap b winLength _ _ (λ r c, r * size + c) (size + 1)).
  rewrite (scan_swap b winLength _ _ (λ r c, r * size + c) (size - 1)).
  by rewrite !or_else_fmap.
Qed.

(** C8: the engine of the UI and the engine of the server return the same
    winner and the same move on every board, size and winLength. *)
Theorem ui_server_agree (b : board) (size winLength : Z) :
  App.computeWinner b size winLength = Server.computeWinner b size winLength ∧
  App.getSmartAiMove b size winLength = Server.getSmartAiMove b size winLength.
Proof. split; reflexivity. Qed.


(** C10: on a board that already contains a winning line and still has an
    empty cell, [getSmartAiMove] returns the index of an empty cell: it
    does not look for a winner on the board it is given. *)
Theorem getSmartAiMove_on_won_board (b : board) (size winLength : Z)
  (m : mark) (i : nat) :
  has_line b size winLength m →
  b !! i = Some None →
  ∃ i0, App.getSmartAiMove b size winLength = Some i0 ∧ b !! i0 = Some None.
Proof.
  intros _ Hi. destruct (getSmartAiMove_is_Some b size winLength i Hi) as [i0 E].
  exists i0. split; [done|]. by apply getSmartAiMove_empty in E.
Qed.

Lemma getSmartAiMove_on_won_board_witness :
  ∃ i0, App.getSmartAiMove
          [Some X; Some X; Some X; Some O; Some O; None; None; None; None] 3 3
        = Some i0 ∧
        [Some X; Some X; Some X; Some O; Some O; None; None; None; None] !! i0
        = Some None.
Proof.
  apply (getSmartAiMove_on_won_board
           [Some X; Some X; Some X; Some O; Some O; None; None; None; None]
           3 3 X 5).
  - apply computeWinner_sound; [lia | reflexivity].
  - reflexivity.
Defined.

(** ** Further properties of the win detector *)

Lemma window_start (b : board) winLength i0 step m :
  App.window b winLength i0 step = Some m → js_get b i0 = Some (Some m).
Proof.
  unfold App.window. destruct (js_get b i0) as [[v|]|]; try discriminate.
  destruct (forallb _ _); [|discriminate]. by intros [= ->].
Qed.

Lemma js_get_elem_of (b : board) i (c : cell) : js_get b i = Some c → c ∈ b.
Proof.
  unfold js_get. destruct (0 <=? i); [|discriminate].
  intros H. apply list_elem_of_lookup. by eexists.
Qed.

Lemma scan_mark_on_board (b : board) winLength (outer inner : list Z)
  (i0 : Z → Z → Z) step m :
  first_some (λ a, first_some (λ a', App.window b winLength (i0 a a') step) inner)
    outer = Some m →
  Some m ∈ b.
Proof.
  intros (a & _ & H)%first_some_Some. apply first_some_Some in H as (a' & _ & H).
  apply window_start in H. by apply js_get_elem_of in H.
Qed.

Lemma computeWinner_Some_elem (b : board) (size winLength : Z) (m : mark) :
  App.computeWinner b size winLength = Some m → Some m ∈ b.
Proof.
  unfold App.computeWinner. intros H.
  apply or_else_Some in H as [H|H]; [|apply or_else_Some in H as [H|H];
    [|apply or_else_Some in H as [H|H]]].
  - by apply (scan_mark_on_board b winLength _ _ (λ r c, r * size + c)) in H.
  - by apply (scan_mark_on_board b winLength _ _ (λ c r, r * size + c)) in H.
  - by apply (scan_mark_on_board b winLength _ _ (λ r c, r * size + c)) in H.
  - by apply (scan_mark_on_board b winLength _ _ (λ r c, r * size + c)) in H.
Qed.

(** The winner [computeWinner] reports is a mark that is on the board,
    whatever the size and the winLength; so a board without marks has no
    winner. *)
Theorem computeWinner_mark_on_board (b : board) (size winLength : Z) (m : mark) :
  App.computeWinner b size winLength = Some m → Some m ∈ b.
Proof. apply computeWinner_Some_elem. Qed.

Lemma computeWinner_mark_on_board_witness :
  Some X ∈ [Some X; Some X; Some X; None; Some O; Some O; None; None; None].
Proof.
  apply (computeWinner_mark_on_board
           [Some X; Some X; Some X; None; Some O; Some O; None; None; None] 3 3 X).
  reflexivity.
Defined.

Lemma range_empty lo hi : hi ≤ lo → range lo hi = [].
Proof. intros H. unfold range. apply seqZ_nil. lia. Qed.

Lemma first_some_all_None {A B} (l : list A) :
  first_some (λ _ : A, @None B) l = None.
Proof. by induction l. Qed.

(** A winLength greater than the size leaves no window to test: no
    winner is reported, whatever the board holds. *)
Theorem computeWinner_winLength_exceeds_size (b : board) (size winLength : Z) :
  size < winLength → App.computeWinner b size winLength = None.
Proof.
  intros H. unfold App.computeWinner.
  rewrite (range_empty 0 (size - winLength + 1)) by lia. simpl.
  by rewrite !first_some_all_None.
Qed.

Lemma computeWinner_winLength_exceeds_size_witness :
  App.computeWinner [Some X; Some X; Some X; Some X] 2 3 = None.
Proof.
  apply (computeWinner_winLength_exceeds_size [Some X; Some X; Some X; Some X] 2 3).
  lia.
Defined.

Lemma first_some_mono {A B} (f g : A → option B) (l : list A) :
  (∀ a, is_Some (f a) → is_Some (g a)) →
  is_Some (first_some f l) → is_Some (first_some g l).
Proof.
  intros Hfg. induction l as [|a l IH]; simpl; [done|].
  destruct (f a) eqn:Hf.
  - intros _. destruct (Hfg a) as [y Hy]; [by rewrite Hf|]. by rewrite Hy.
  - intros H. destruct (g a); [done | by apply IH].
Qed.

Lemma or_else_mono {A} (x y x' y' : option A) :
  (is_Some x → is_Some x') → (is_Some y → is_Some y') →
  is_Some (or_else x y) → is_Some (or_else x' y').
Proof.
  destruct x, x'; simpl; auto.
  intros H _ _. destruct H as [? [=]]. by eexists.
Qed.

Lemma js_get_fill (b : board) (i : nat) (p m : mark) (j : Z) :
  b !! i = Some None →
  js_get b j = Some (Some m) → js_get (<[i := Some p]> b) j = Some (Some m).
Proof.
  intros Hi. unfold js_get. destruct (0 <=? j); [|done].
  intros Hj. rewrite list_lookup_insert_ne; [done|]. congruence.
Qed.

Lemma window_fill (b : board) (i : nat) (p : mark) winLength i0 step :
  b !! i = Some None →
  is_Some (App.window b winLength i0 step) →
  is_Some (App.window (<[i := Some p]> b) winLength i0 step).
Proof.
  intros Hi. unfold App.window.
  destruct (js_get b i0) as [[v|]|] eqn:E0; try (by intros [? [=]]).
  rewrite (js_get_fill b i p v i0 Hi E0).
  destruct (forallb _ _) eqn:Hall; [|by intros [? [=]]].
  intros _.
  assert (Hall' : forallb (λ k, is_mark (js_get (<[i := Some p]> b) (i0 + k * step)) v)
                    (range 1 winLength) = true).
  { rewrite forallb_forall in *. intros k Hk. specialize (Hall k Hk).
    unfold is_mark in *. apply bool_decide_eq_true in Hall.
    apply bool_decide_eq_true. by apply js_get_fill. }
  rewrite Hall'. by eexists.
Qed.

(** Filling an empty cell never makes a winner disappear: when
    [computeWinner] reports a winner on a board, it reports one on the
    board with one more mark. *)
Theorem computeWinner_fill (b : board) (size winLength : Z) (i : nat) (p : mark) :
  b !! i = Some None →
  is_Some (App.computeWinner b size winLength) →
  is_Some (App.computeWinner (<[i := Some p]> b) size winLength).
Proof.
  intros Hi. unfold App.computeWinner.
  repeat apply or_else_mono;
    (apply first_some_mono; intros a; apply first_some_mono; intros a';
     by apply window_fill).
Qed.

Lemma computeWinner_fill_witness :
  is_Some (App.computeWinner
             (<[5%nat := Some O]>
                [Some X; Some X; Some X; Some O; Some O; None; None; None; None])
             3 3).
Proof.
  apply (computeWinner_fill
           [Some X; Some X; Some X; Some O; Some O; None; None; None; None]
           3 3 5 O).
  - reflexivity.
  - by eexists.
Defined.

(** ** The scoreboard routes *)

Lemma isString_true (v : Server.jsval) (s : string) :
  Scoreboard.isString v s = true ↔ v = Some (Server.JStr s).
Proof.
  unfold Scoreboard.isString. destruct v as [[]|]; try (split; [discriminate|by intros [=]]).
  rewrite String.eqb_eq. split; [by intros -> | by intros [= ->]].
Qed.

(** The increment route answers 400 with the scoreboard untouched
    exactly when the [winner] of the body is neither the string ['X']
    nor the string ['O'] (a missing body or field included); for ['X']
    it adds one to the score of ['X'] and leaves that of ['O'], for
    ['O'] the other way round, and answers 200 with the scoreboard so
    updated. *)
Theorem apiScoreIncrement_rejects (body : Server.jsval) (sb : Scoreboard.scoreboard) :
  (Server.status (Scoreboard.apiScoreIncrement body sb).2 = 400 ↔
   Server.prop (Server.bodyOrEmpty body) "winner" ≠ Some (Server.JStr "X") ∧
   Server.prop (Server.bodyOrEmpty body) "winner" ≠ Some (Server.JStr "O")) ∧
  (Server.prop (Server.bodyOrEmpty body) "winner" ≠ Some (Server.JStr "X") →
   Server.prop (Server.bodyOrEmpty body) "winner" ≠ Some (Server.JStr "O") →
   Scoreboard.apiScoreIncrement body sb =
   (sb, Server.Response 400
          (Server.JObj [("error"%string, Server.JStr "Invalid winner")]))) ∧
  (Server.prop (Server.bodyOrEmpty body) "winner" = Some (Server.JStr "X") →
   Scoreboard.apiScoreIncrement body sb =
   (Scoreboard.Board (Scoreboard.score_X sb + 1) (Scoreboard.score_O sb),
    Server.Response 200
      (Server.JObj [("X"%string, Server.JNum (Scoreboard.score_X sb + 1));
                    ("O"%string, Server.JNum (Scoreboard.score_O sb))]))) ∧
  (Server.prop (Server.bodyOrEmpty body) "winner" = Some (Server.JStr "O") →
   Scoreboard.apiScoreIncrement body sb =
   (Scoreboard.Board (Scoreboard.score_X sb) (Scoreboard.score_O sb + 1),
    Server.Response 200
      (Server.JObj [("X"%string, Server.JNum (Scoreboard.score_X sb));
                    ("O"%string, Server.JNum (Scoreboard.score_O sb + 1))]))).
Proof.
  unfold Scoreboard.apiScoreIncrement.
  split_and!.
  - rewrite <- !isString_true.
    destruct (Scoreboard.isString _ "X"), (Scoreboard.isString _ "O"); simpl;
      try done; try (split; [done | by intros []]).
  - intros HX HO.
    rewrite <- isString_true in HX, HO.
    apply not_true_is_false in HX, HO. by rewrite HX, HO.
  - intros ->. reflexivity.
  - intros ->. reflexivity.
Qed.

Lemma serve_from (rqs : list Scoreboard.request) (sb : Scoreboard.scoreboard) :
  fold_left (λ sb rq, (Scoreboard.handle sb rq).1) rqs sb =
  if existsb (λ r, match r with Scoreboard.Reset => true | _ => false end) rqs
  then Scoreboard.Board (incrementsSinceReset X rqs) (incrementsSinceReset O rqs)
  else Scoreboard.Board (Scoreboard.score_X sb + incrementsSinceReset X rqs)
         (Scoreboard.score_O sb + incrementsSinceReset O rqs).
Proof.
  revert sb. induction rqs as [|rq rqs IH]; intros [x o].
  - simpl. f_equal; lia.
  - cbn [fold_left existsb incrementsSinceReset]. rewrite IH.
    destruct (existsb _ rqs) eqn:E.
    + by rewrite orb_true_r.
    + rewrite orb_false_r. destruct rq as [|body|]; simpl.
      * done.
      * unfold Scoreboard.apiScoreIncrement.
        destruct (Scoreboard.isString _ "X") eqn:EX;
          destruct (Scoreboard.isString _ "O") eqn:EO; simpl.
        -- apply isString_true in EX, EO. congruence.
        -- f_equal; lia.
        -- f_equal; lia.
        -- done.
      * f_equal; lia.
Qed.

Lemma incrementsSinceReset_nonneg (m : mark) (rqs : list Scoreboard.request) :
  0 ≤ incrementsSinceReset m rqs.
Proof.
  induction rqs as [|rq rqs IH]; simpl; [lia|].
  destruct (existsb _ rqs); [done|].
  destruct rq; try done. destruct (Scoreboard.isString _ _); lia.
Qed.

(** After any sequence of requests to a fresh server the scoreboard of
    each mark is the number of accepted increments of that mark since
    the last reset; no score is ever negative. *)
Theorem serve_counts (rqs : list Scoreboard.request) :
  Scoreboard.serve rqs =
  Scoreboard.Board (incrementsSinceReset X rqs) (incrementsSinceReset O rqs) ∧
  0 ≤ Scoreboard.score_X (Scoreboard.serve rqs) ∧
  0 ≤ Scoreboard.score_O (Scoreboard.serve rqs).
Proof.
  assert (E : Scoreboard.serve rqs =
    Scoreboard.Board (incrementsSinceReset X rqs) (incrementsSinceReset O rqs)).
  { unfold Scoreboard.serve. rewrite serve_from. by destruct (existsb _ rqs). }
  rewrite E. simpl. split_and!; [done|apply incrementsSinceReset_nonneg..].
Qed.

(** Every 200 answer of a score route carries the scoreboard as the
    request left it: a read that follows returns the same body. *)
Theorem score_answer_current (sb : Scoreboard.scoreboard) (rq : Scoreboard.request) :
  Server.status (Scoreboard.handle sb rq).2 = 200 →
  (Scoreboard.handle sb rq).2 =
  (Scoreboard.apiScore (Scoreboard.handle sb rq).1).2.
Proof.
  destruct rq as [|body|]; simpl; try done.
  unfold Scoreboard.apiScoreIncrement.
  destruct (negb _ && negb _); simpl; [discriminate | done].
Qed.

Lemma score_answer_current_witness :
  (Scoreboard.handle (Scoreboard.Board 2 1) (Scoreboard.Increment (winnerBody O))).2 =
  (Scoreboard.apiScore
     (Scoreboard.handle (Scoreboard.Board 2 1)
        (Scoreboard.Increment (winnerBody O))).1).2.
Proof.
  apply (score_answer_current (Scoreboard.Board 2 1)
           (Scoreboard.Increment (winnerBody O))).
  reflexivity.
Defined.

(** ** The App component *)

Lemma marks_cons (m : mark) (c : cell) (b : board) :
  marks m (c :: b) =
  ((if bool_decide (c = Some m) then 1 else 0) + marks m b)%nat.
Proof.
  unfold marks. rewrite filter_cons.
  case_bool_decide; [by rewrite decide_True | by rewrite decide_False].
Qed.

Lemma marks_fill (b : board) (i : nat) (p m : mark) :
  b !! i = Some None →
  marks m (<[i := Some p]> b) =
  (marks m b + (if bool_decide (p = m) then 1 else 0))%nat.
Proof.
  revert i. induction b as [|c b IH]; intros [|i] Hi; try done.
  - injection Hi as ->. change (<[0%nat := Some p]> (None :: b)) with (Some p :: b).
    rewrite !marks_cons.
    rewrite (bool_decide_eq_false_2 (None = Some m)) by done.
    destruct (decide (p = m)) as [->|Hp].
    + rewrite !bool_decide_eq_true_2 by done. lia.
    + rewrite !bool_decide_eq_false_2 by congruence. lia.
  - change (<[S i := Some p]> (c :: b)) with (c :: <[i := Some p]> b).
    rewrite !marks_cons, (IH i Hi). lia.
Qed.

Lemma emptyBoard_no_mark (size : Z) (m : mark) : Some m ∉ Ui.emptyBoard size.
Proof.
  unfold Ui.emptyBoard. intros [H _]%elem_of_replicate. discriminate.
Qed.

Lemma marks_emptyBoard (size : Z) (m : mark) : marks m (Ui.emptyBoard size) = 0%nat.
Proof.
  unfold Ui.emptyBoard.
  induction (Z.to_nat (size * size)) as [|n IH]; [done|].
  cbn [replicate]. rewrite marks_cons, IH. by rewrite bool_decide_eq_false_2.
Qed.

Lemma length_emptyBoard (size : Z) :
  Z.of_nat (length (Ui.emptyBoard size)) = size * size.
Proof. unfold Ui.emptyBoard. rewrite length_replicate. nia. Qed.

Lemma computeWinner_emptyBoard (n size winLength : Z) :
  App.computeWinner (Ui.emptyBoard n) size winLength = None.
Proof.
  destruct (App.computeWinner _ _ _) as [m|] eqn:E; [|done].
  apply computeWinner_Some_elem in E. by apply emptyBoard_no_mark in E.
Qed.

Lemma every_not_None (b : board) :
  forallb (λ c, bool_decide (c ≠ None)) b = bool_decide (None ∉ b).
Proof.
  induction b as [|c l IH]; [done|]. cbn [forallb]. rewrite IH.
  apply eq_true_iff_eq.
  rewrite andb_true_iff, !bool_decide_eq_true, not_elem_of_cons.
  split; (intros [H1 H2]; split; [congruence | done]).
Qed.

Lemma emptyBoard_not_full (size : Z) :
  size ≠ 0 → bool_decide (None ∉ Ui.emptyBoard size) = false.
Proof.
  intros H. apply bool_decide_eq_false. intros Hn. apply Hn.
  unfold Ui.emptyBoard. apply elem_of_replicate. split; [done|]. nia.
Qed.

(** The effects leave the board, its size, the turn and the mode, and
    set [winner] and [isDraw] from the board. *)
Lemma settle_consistent (prev st : Ui.state) :
  Z.of_nat (length (Ui.board st)) = Ui.boardSize st * Ui.boardSize st →
  (Ui.boardSize st = 3 ∨ Ui.boardSize st = 5) →
  marks X (Ui.board st) =
    (marks O (Ui.board st) + (if Ui.isXNext st then 0 else 1))%nat →
  consistent (Ui.settle prev st).
Proof.
  intros Hlen Hsize Hturn. unfold consistent, Ui.settle, Ui.hasWinner, Ui.winLength.
  simpl. split_and!; try done. by rewrite every_not_None.
Qed.

Lemma handleCellClick_Some (st st' : Ui.state) (i : nat) :
  Ui.handleCellClick st i = Some st' →
  Ui.hasWinner st = false ∧ Ui.isDraw st = false ∧
  Ui.board st !! i = Some None ∧
  st' = Ui.State (Ui.boardSize st)
          (<[i := Some (if Ui.isXNext st then X else O)]> (Ui.board st))
          (negb (Ui.isXNext st)) (Ui.winner st) (Ui.isDraw st)
          (Ui.mode st) (Ui.scores st).
Proof.
  unfold Ui.handleCellClick.
  destruct (Ui.hasWinner st), (Ui.isDraw st); simpl; try discriminate.
  destruct (Ui.board st !! i) as [[m|]|]; try discriminate.
  destruct (_ && _); [discriminate|]. by intros [= <-].
Qed.

Lemma aiMove_Some (st st' : Ui.state) :
  Ui.aiMove st = Some st' →
  ∃ idx, Ui.board st !! idx = Some None ∧
    App.getSmartAiMove (Ui.board st) (Ui.boardSize st) (Ui.winLength st) = Some idx ∧
    st' = Ui.State (Ui.boardSize st) (<[idx := Some O]> (Ui.board st)) true
            (Ui.winner st) (Ui.isDraw st) (Ui.mode st) (Ui.scores st).
Proof.
  unfold Ui.aiMove.
  destruct (App.getSmartAiMove _ _ _) as [idx|] eqn:E; [|discriminate].
  intros [= <-]. exists idx. split_and!; [|done..].
  by apply getSmartAiMove_empty in E.
Qed.

Lemma aiArmed_true (st : Ui.state) :
  Ui.aiArmed st = true →
  Ui.mode st = Ui.ai ∧ Ui.hasWinner st = false ∧ Ui.isDraw st = false ∧
  Ui.isXNext st = false.
Proof.
  unfold Ui.aiArmed. rewrite !andb_true_iff, !negb_true_iff, orb_false_iff.
  rewrite bool_decide_eq_true. tauto.
Qed.

Lemma step_consistent (st : Ui.state) (ev : Ui.event) :
  consistent st → consistent (Ui.step st ev).
Proof.
  intros Hst. pose proof Hst as (Hlen & Hsize & Hw & Hd & Hturn).
  destruct ev as [i| |newMode|s|]; simpl.
  - destruct (Ui.handleCellClick st i) as [st'|] eqn:E; [|done].
    apply handleCellClick_Some in E as (_ & _ & Hi & ->).
    apply settle_consistent; simpl; [by rewrite length_insert|done|].
    rewrite !marks_fill by done. destruct (Ui.isXNext st); simpl in *; lia.
  - apply settle_consistent; simpl;
      [apply length_emptyBoard|done|by rewrite !marks_emptyBoard].
  - apply settle_consistent; simpl;
      [apply length_emptyBoard|done|by rewrite !marks_emptyBoard].
  - apply settle_consistent; simpl;
      [apply length_emptyBoard|destruct s; auto|by rewrite !marks_emptyBoard].
  - destruct (Ui.aiArmed st) eqn:Ha; [|done].
    destruct (Ui.aiMove st) as [st'|] eqn:E; [|done].
    apply aiArmed_true in Ha as (_ & _ & _ & Hx).
    apply aiMove_Some in E as (idx & Hi & _ & ->).
    apply settle_consistent; simpl; [by rewrite length_insert|done|].
    rewrite !marks_fill by done. rewrite Hx in Hturn. simpl. lia.
Qed.

Lemma initial_consistent : consistent Ui.initialState.
Proof. unfold consistent; simpl. split_and!; try done; auto. Qed.

Lemma fold_step_consistent (evs : list Ui.event) (st : Ui.state) :
  consistent st → consistent (fold_left Ui.step evs st).
Proof.
  revert st. induction evs as [|ev evs IH]; intros st Hst; [done|].
  simpl. by apply IH, step_consistent.
Qed.

(** After any sequence of clicks, button presses and timer firings the
    board has size × size cells with size 3 or 5, [winner] and [isDraw]
    are those of the board shown (a draw only without winner and
    without empty cell), and the numbers of marks show that the players
    alternated from ['X']: as many ['X'] as ['O'] when ['X'] is next,
    one more when ['O'] is next. *)
Theorem run_consistent (evs : list Ui.event) : consistent (Ui.run evs).
Proof. apply fold_step_consistent, initial_consistent. Qed.


(** Marked cells cannot be changed: a click or the move of the AI keeps
    the number of cells and the mark of every occupied cell, and once
    there is a winner or a draw neither changes anything at all. *)
Theorem marks_are_kept (st : Ui.state) (ev : Ui.event) :
  match ev with Ui.Click _ | Ui.AiTimer => True | _ => False end →
  length (Ui.board (Ui.step st ev)) = length (Ui.board st) ∧
  (∀ j m, Ui.board st !! j = Some (Some m) →
          Ui.board (Ui.step st ev) !! j = Some (Some m)) ∧
  (Ui.hasWinner st = true ∨ Ui.isDraw st = true → Ui.step st ev = st).
Proof.
  assert (Hfill : ∀ (b : board) i p,
            b !! i = Some None →
            length (<[i := Some p]> b) = length b ∧
            ∀ j m, b !! j = Some (Some m) → <[i := Some p]> b !! j = Some (Some m)).
  { intros b i p Hi. split; [apply length_insert|].
    intros j m Hj. rewrite list_lookup_insert_ne; [done|congruence]. }
  destruct ev as [i| | | |]; try done; intros _; simpl.
  - destruct (Ui.handleCellClick st i) as [st'|] eqn:E.
    + apply handleCellClick_Some in E as (Hw & Hd & Hi & ->). simpl.
      destruct (Hfill (Ui.board st) i (if Ui.isXNext st then X else O) Hi) as [Hl Hk].
      split_and!; [done|done|]. intros [?|?]; congruence.
    + done.
  - destruct (Ui.aiArmed st) eqn:Ha; [|done].
    apply aiArmed_true in Ha as (_ & Hw & Hd & _).
    destruct (Ui.aiMove st) as [st'|] eqn:E; [|done].
    apply aiMove_Some in E as (idx & Hi & _ & ->). simpl.
    destruct (Hfill (Ui.board st) idx O Hi) as [Hl Hk].
    split_and!; [done|done|]. intros [?|?]; congruence.
Qed.

Lemma marks_are_kept_witness :
  length (Ui.board (Ui.step (Ui.run [Ui.Click 0%nat]) (Ui.Click 1%nat))) =
  length (Ui.board (Ui.run [Ui.Click 0%nat])) ∧
  (∀ j m, Ui.board (Ui.run [Ui.Click 0%nat]) !! j = Some (Some m) →
          Ui.board (Ui.step (Ui.run [Ui.Click 0%nat]) (Ui.Click 1%nat)) !! j
          = Some (Some m)) ∧
  (Ui.hasWinner (Ui.run [Ui.Click 0%nat]) = true ∨
   Ui.isDraw (Ui.run [Ui.Click 0%nat]) = true →
   Ui.step (Ui.run [Ui.Click 0%nat]) (Ui.Click 1%nat) = Ui.run [Ui.Click 0%nat]).
Proof.
  apply (marks_are_kept (Ui.run [Ui.Click 0%nat]) (Ui.Click 1%nat)).
  exact I.
Defined.

(** A cell's button is enabled exactly when a click on that cell places
    a mark; a click on an index outside the board does nothing. *)
Theorem cell_enabled_iff_click_moves (st : Ui.state) (i : nat) :
  (∀ v, Ui.board st !! i = Some v →
        (Ui.cellDisabled st v = false ↔ is_Some (Ui.handleCellClick st i))) ∧
  (Ui.board st !! i = None → Ui.step st (Ui.Click i) = st).
Proof.
  split.
  - intros v Hv. unfold Ui.cellDisabled, Ui.boardDisabled, Ui.handleCellClick.
    rewrite Hv.
    destruct (Ui.hasWinner st), (Ui.isDraw st); simpl;
      try (split; [discriminate | by intros [? [=]]]).
    destruct (bool_decide (Ui.mode st = Ui.ai) && negb (Ui.isXNext st)); simpl.
    + split; [discriminate|]. destruct v; by intros [? [=]].
    + destruct v as [m|]; simpl.
      * split; [discriminate | by intros [? [=]]].
      * split; [by eexists | done].
  - intros Hi. simpl. unfold Ui.handleCellClick. rewrite Hi.
    by destruct (_ || _).
Qed.

(** The timer of the AI is armed only on a board without winner that has
    an empty cell, so the selector it calls always gives a move: when the
    timer fires, ['O'] is placed on an empty cell and the turn goes back
    to ['X']. *)
Theorem ai_moves_when_armed (st : Ui.state) :
  consistent st →
  Ui.aiArmed st = true →
  App.computeWinner (Ui.board st) (Ui.boardSize st) (Ui.winLength st) = None ∧
  ∃ idx, Ui.board st !! idx = Some None ∧
         Ui.board (Ui.step st Ui.AiTimer) = <[idx := Some O]> (Ui.board st) ∧
         Ui.isXNext (Ui.step st Ui.AiTimer) = true.
Proof.
  intros (_ & _ & Hw & Hd & _) Ha. cbn [Ui.step]. rewrite Ha.
  apply aiArmed_true in Ha as (_ & Hnw & Hnd & _).
  rewrite Hnw, Hnd in Hd. simpl in Hd. symmetry in Hd.
  apply bool_decide_eq_false in Hd.
  assert (Hempty : None ∈ Ui.board st).
  { destruct (decide (None ∈ Ui.board st)); [done | by destruct Hd]. }
  apply list_elem_of_lookup in Hempty as [e He].
  split.
  { rewrite <- Hw. unfold Ui.hasWinner in Hnw. by destruct (Ui.winner st). }
  destruct (getSmartAiMove_is_Some (Ui.board st) (Ui.boardSize st)
              (Ui.winLength st) e He) as [idx Hidx].
  unfold Ui.aiMove. rewrite Hidx. exists idx. split_and!; [|done..].
  by apply getSmartAiMove_empty in Hidx.
Qed.

Lemma ai_moves_when_armed_witness :
  App.computeWinner (Ui.board (Ui.run [Ui.ChangeMode Ui.ai; Ui.Click 0%nat]))
    (Ui.boardSize (Ui.run [Ui.ChangeMode Ui.ai; Ui.Click 0%nat]))
    (Ui.winLength (Ui.run [Ui.ChangeMode Ui.ai; Ui.Click 0%nat])) = None ∧
  ∃ idx, Ui.board (Ui.run [Ui.ChangeMode Ui.ai; Ui.Click 0%nat]) !! idx = Some None ∧
         Ui.board (Ui.step (Ui.run [Ui.ChangeMode Ui.ai; Ui.Click 0%nat]) Ui.AiTimer) =
           <[idx := Some O]> (Ui.board (Ui.run [Ui.ChangeMode Ui.ai; Ui.Click 0%nat])) ∧
         Ui.isXNext (Ui.step (Ui.run [Ui.ChangeMode Ui.ai; Ui.Click 0%nat]) Ui.AiTimer)
         = true.
Proof.
  apply (ai_moves_when_armed (Ui.run [Ui.ChangeMode Ui.ai; Ui.Click 0%nat])).
  - apply fold_step_consistent, initial_consistent.
  - reflexivity.
Defined.



(** Restarting and changing the mode or the board size start a new
    round: an all-empty board of size × size cells, ['X'] to move, no
    winner and no draw; the scores persist, and so do the size (on
    restart and mode change) and the mode (on restart and size
    change). *)
Theorem round_reset (st : Ui.state) :
  Ui.boardSize st ≠ 0 →
  Ui.step st Ui.Restart =
    Ui.State (Ui.boardSize st) (replicate (Z.to_nat (Ui.boardSize st * Ui.boardSize st)) None)
      true None false (Ui.mode st) (Ui.scores st) ∧
  (∀ newMode, Ui.step st (Ui.ChangeMode newMode) =
    Ui.State (Ui.boardSize st) (replicate (Z.to_nat (Ui.boardSize st * Ui.boardSize st)) None)
      true None false newMode (Ui.scores st)) ∧
  (∀ s, Ui.step st (Ui.ChangeBoardSize s) =
    Ui.State (Ui.sizeOf s) (replicate (Z.to_nat (Ui.sizeOf s * Ui.sizeOf s)) None)
      true None false (Ui.mode st) (Ui.scores st)).
Proof.
  intros Hsize.
  assert (Hreset : ∀ size md, size ≠ 0 →
            Ui.settle st
              (Ui.State size (Ui.emptyBoard size) true None false md (Ui.scores st)) =
            Ui.State size (Ui.emptyBoard size) true None false md (Ui.scores st)).
  { intros size md Hs. unfold Ui.settle. simpl.
    rewrite computeWinner_emptyBoard, every_not_None, emptyBoard_not_full by done.
    rewrite (bool_decide_eq_false_2 (None ≠ None)) by auto.
    by destruct (bool_decide _). }
  split_and!.
  - apply (Hreset _ _ Hsize).
  - intros newMode. apply (Hreset _ _ Hsize).
  - intros s. apply Hreset. by destruct s.
Qed.

Lemma round_reset_witness :
  Ui.step (Ui.run [Ui.Click 3%nat]) Ui.Restart =
    Ui.State (Ui.boardSize (Ui.run [Ui.Click 3%nat]))
      (replicate (Z.to_nat (Ui.boardSize (Ui.run [Ui.Click 3%nat])
                            * Ui.boardSize (Ui.run [Ui.Click 3%nat]))) None)
      true None false (Ui.mode (Ui.run [Ui.Click 3%nat]))
      (Ui.scores (Ui.run [Ui.Click 3%nat])) ∧
  (∀ newMode, Ui.step (Ui.run [Ui.Click 3%nat]) (Ui.ChangeMode newMode) =
    Ui.State (Ui.boardSize (Ui.run [Ui.Click 3%nat]))
      (replicate (Z.to_nat (Ui.boardSize (Ui.run [Ui.Click 3%nat])
                            * Ui.boardSize (Ui.run [Ui.Click 3%nat]))) None)
      true None false newMode (Ui.scores (Ui.run [Ui.Click 3%nat]))) ∧
  (∀ s, Ui.step (Ui.run [Ui.Click 3%nat]) (Ui.ChangeBoardSize s) =
    Ui.State (Ui.sizeOf s) (replicate (Z.to_nat (Ui.sizeOf s * Ui.sizeOf s)) None)
      true None false (Ui.mode (Ui.run [Ui.Click 3%nat]))
      (Ui.scores (Ui.run [Ui.Click 3%nat]))).
Proof.
  apply (round_reset (Ui.run [Ui.Click 3%nat])). vm_compute. discriminate.
Defined.

(** For an odd size whose square is at most 2^53, so that the products
    and sums of [getCenterIndex] are exact in JavaScript numbers, the
    center index is the exact center of the flattened board: as many
    cells before it as after it. *)
Theorem getCenterIndex_odd (size : Z) :
  1 ≤ size → size * size ≤ 2 ^ 53 → size mod 2 = 1 →
  App.getCenterIndex size = (size * size - 1) / 2 ∧
  App.getCenterIndex size = (size * size - 1) - App.getCenterIndex size.
Proof.
  intros Hpos _ Hodd. unfold App.getCenterIndex.
  pose proof (Z.div_mod size 2 ltac:(lia)) as Hdm. rewrite Hodd in Hdm.
  set (k := size / 2) in *.
  assert (E : size * size - 1 = (k * size + k) * 2) by nia.
  rewrite E, Z.div_mul by lia. split; [done | lia].
Qed.

Lemma getCenterIndex_odd_witness :
  App.getCenterIndex 5 = (5 * 5 - 1) / 2 ∧
  App.getCenterIndex 5 = (5 * 5 - 1) - App.getCenterIndex 5.
Proof. apply (getCenterIndex_odd 5); [lia | vm_compute; discriminate | reflexivity]. Defined.

Lemma apiWinner_payloadOf_witness :
  Server.apiWinner typedWinner (Server.payloadOf scenario_board 3 3) =
  Server.Response 200 (Server.JObj
    [("winner"%string, Server.cellJson (Server.computeWinner scenario_board 3 3));
     ("isDraw"%string,
      Server.JBool (bool_decide (Server.computeWinner scenario_board 3 3 = None) &&
                    bool_decide (None ∉ scenario_board)))]) ∧
  Server.apiAiMove typedMove (Server.payloadOf scenario_board 3 3) =
  Server.Response 200 (Server.JObj
    [("index"%string, Server.indexJson (Server.getSmartAiMove scenario_board 3 3))]).
Proof.
  apply (apiWinner_payloadOf typedWinner typedMove scenario_board 3 3).
  - apply engine_modelled_typed.
  - lia.
  - lia.
Defined.

(** Every move places the mark of the player whose turn it is: a click
    or the move of the AI either changes nothing, or fills one empty
    cell with ['X'] when ['X'] is next and with ['O'] otherwise, and
    passes the turn. *)
Theorem move_places_turn_mark (st : Ui.state) (ev : Ui.event) :
  match ev with Ui.Click _ | Ui.AiTimer => True | _ => False end →
  Ui.step st ev = st ∨
  ∃ idx, Ui.board st !! idx = Some None ∧
         Ui.board (Ui.step st ev) =
           <[idx := Some (if Ui.isXNext st then X else O)]> (Ui.board st) ∧
         Ui.isXNext (Ui.step st ev) = negb (Ui.isXNext st).
Proof.
  destruct ev as [i| | | |]; try done; intros _; cbn [Ui.step].
  - destruct (Ui.handleCellClick st i) as [st'|] eqn:E; [|by left].
    apply handleCellClick_Some in E as (_ & _ & Hi & ->). right. by exists i.
  - destruct (Ui.aiArmed st) eqn:Ha; [|by left].
    destruct (Ui.aiMove st) as [st'|] eqn:E; [|by left].
    apply aiArmed_true in Ha as (_ & _ & _ & Hx).
    apply aiMove_Some in E as (idx & Hi & _ & ->). right. exists idx.
    rewrite Hx. by simpl.
Qed.

Lemma move_places_turn_mark_witness :
  Ui.step Ui.initialState (Ui.Click 7%nat) = Ui.initialState ∨
  ∃ idx, Ui.board Ui.initialState !! idx = Some None ∧
         Ui.board (Ui.step Ui.initialState (Ui.Click 7%nat)) =
           <[idx := Some (if Ui.isXNext Ui.initialState then X else O)]>
             (Ui.board Ui.initialState) ∧
         Ui.isXNext (Ui.step Ui.initialState (Ui.Click 7%nat)) =
           negb (Ui.isXNext Ui.initialState).
Proof. apply (move_places_turn_mark Ui.initialState (Ui.Click 7%nat)). exact I. Defined.

Lemma windows_through_nil (size winLength : Z) (d cand : Z * Z) :
  d ∈ window_directions → size < winLength →
  windows_through size winLength d cand = [].
Proof.
  intros Hd Hwl. apply elem_of_nil_inv. intros s.
  unfold windows_through. rewrite list_elem_of_filter.
  intros [[Hall Hcand] _]. rewrite Forall_forall in Hall.
  unfold run_cells in Hall, Hcand.
  apply list_elem_of_fmap in Hcand as (k & _ & Hk%elem_of_range).
  assert (H0 : on_board size (s.1 + 0 * d.1, s.2 + 0 * d.2)).
  { apply Hall, list_elem_of_fmap. exists 0. split; [done|]. apply elem_of_range. lia. }
  assert (H1 : on_board size (s.1 + (winLength - 1) * d.1,
                              s.2 + (winLength - 1) * d.2)).
  { apply Hall, list_elem_of_fmap. exists (winLength - 1). split; [done|].
    apply elem_of_range. lia. }
  unfold on_board, window_directions in *. rewrite !elem_of_cons in Hd. simpl in *.
  destruct Hd as [->|[->|[->|[->|Hd]]]]; [..|by inversion Hd]; simpl in *; lia.
Qed.

(** With winLength greater than the size no window fits on the board:
    the score of a cell is its center proximity plus its corner bonus,
    whatever the board holds. *)
Theorem evaluateCell_no_window (b : board) (size winLength idx : Z) :
  1 ≤ size →
  Z.of_nat (length b) = size * size →
  0 ≤ idx < size * size →
  size < winLength →
  App.evaluateCell b size winLength idx (App.getCenterIndex size) =
  Num (center_bonus size idx + corner_bonus size idx).
Proof.
  intros Hsize Hlen Hidx Hwl.
  rewrite evaluateCell_reference_score by done. f_equal.
  unfold reference_score, window_directions.
  rewrite 3!bind_cons, bind_singleton.
  rewrite !windows_through_nil
    by (done || (unfold window_directions; rewrite !elem_of_cons; auto 6)).
  simpl. lia.
Qed.

Lemma evaluateCell_no_window_witness :
  App.evaluateCell [Some X; None; None; Some O] 2 3 1 (App.getCenterIndex 2) =
  Num (center_bonus 2 1 + corner_bonus 2 1).
Proof.
  apply (evaluateCell_no_window [Some X; None; None; Some O] 2 3 1);
    [lia | reflexivity | lia | lia].
Defined.
